(** * geeteventbus: the asynchronous event bus (async_eventbus.py)

    A shallow embedding of [AsynchronousEventBus] and of the module-level
    helpers it uses, followed by the properties of the bus that its
    specification states.

    Conventions of the embedding.
    - A Python [str] is a [string]: the sequence of the bytes of its UTF-8
      encoding, so [bytes(data, encoding='UTF-8')] is the list of its bytes.
    - Python integers are [Z]; [%] is floor modulo, as [Z.modulo], and raises
      [ZeroDivisionError] on a zero divisor.
    - A reading of the clock ([time()]) is a rational number of seconds.
    - Mutable objects that the bus holds through several references (the
      shard dictionary, the locks, the queues) live in stores indexed by
      references, so aliasing is visible.
    - A method is a function from the state of the bus to an [outcome]: it
      returns, raises, or blocks on a lock or on a full queue. *)

From Stdlib Require Import ZArith QArith Lia DecimalString.
From Stdlib Require DecimalNat DecimalFacts.
From stdpp Require Import base option list gmap strings fin_maps countable.

Local Open Scope Z_scope.

(** ** Module constants *)

Definition MAX_TOPIC_INDEX : Z := 16.
Definition DEFAULT_EXECUTOR_COUNT : Z := 8.
Definition MIN_EXECUTOR_COUNT : Z := 1.
Definition MAX_EXECUTOR_COUNT : Z := 128.
Definition MAXIMUM_QUEUE_LENGTH : Z := 25600.

(** ** zlib.crc32 and get_crc32 *)

Module Zlib.

(** The reflected CRC-32 polynomial of zlib. *)
Definition poly : Z := 0xEDB88320.

Definition step_bit (c : Z) : Z :=
  if Z.testbit c 0 then Z.lxor (Z.shiftr c 1) poly else Z.shiftr c 1.

Definition step_byte (c b : Z) : Z :=
  Nat.iter 8 step_bit (Z.lxor c b).

Definition crc32 (data : list Z) : Z :=
  Z.lxor (fold_left step_byte data 0xFFFFFFFF) 0xFFFFFFFF.

End Zlib.

(** [bytes(data, encoding='UTF-8')] *)
Definition bytes_of_str (data : string) : list Z :=
  map (fun a => Z.of_N (Ascii.N_of_ascii a)) (String.list_ascii_of_string data).

Definition get_crc32 (data : string) : Z :=
  let strbytes := bytes_of_str data in
  Zlib.crc32 strbytes.

Example crc32_check_value : get_crc32 "123456789" = 0xCBF43926.
Proof. vm_compute. reflexivity. Qed.

(** ** Python objects

    The bus receives arbitrary objects and tests their class with
    [isinstance]. An object is an instance of [Subscriber], an instance of
    [Event], or anything else; [oid] is the identity of the object. *)

Record event := Event {
  oid : nat;
  get_topic : string;
  event_type_name : string;
  get_ordered : option string
}.

Inductive object :=
  | SubscriberObj (id : nat)
  | EventObj (e : event)
  | OtherObj (id : nat).

Definition isinstance_Subscriber (o : object) : bool :=
  match o with SubscriberObj _ => true | _ => false end.

Definition isinstance_Event (o : object) : option event :=
  match o with EventObj e => Some e | _ => None end.

#[global] Instance event_eq_dec : EqDecision event.
Proof. solve_decision. Defined.

#[global] Instance object_eq_dec : EqDecision object.
Proof. solve_decision. Defined.

#[global] Instance event_countable : Countable event.
Proof.
  refine (inj_countable'
    (fun e => (oid e, get_topic e, event_type_name e, get_ordered e))
    (fun t => match t with (i, t, n, o) => Event i t n o end) _).
  intros []; reflexivity.
Defined.

#[global] Instance object_countable : Countable object.
Proof.
  refine (inj_countable'
    (fun o => match o with
              | SubscriberObj i => inl (inl i)
              | EventObj e => inl (inr e)
              | OtherObj i => inr i
              end)
    (fun s => match s with
              | inl (inl i) => SubscriberObj i
              | inl (inr e) => EventObj e
              | inr i => OtherObj i
              end) _).
  intros []; reflexivity.
Defined.

(** ** The state of a bus

    References into the stores are natural numbers. [held_locks] is the
    stack of the [Lock] objects currently acquired ([with] blocks nest);
    [next_lock] is the next reference [Lock()] hands out. *)

Record Queue := mkQueue {
  maxsize : Z;
  items : list event
}.

Record bus := mkBus {
  subscribers_thread_safe : bool;
  topics : list nat;
  consumers : gmap object (list string);
  consumers_lock : nat;
  shutdown_lock : nat;
  subscriber_locks : gmap object nat;
  keep_running : bool;
  stop_time : Q;
  index_locks : list nat;
  event_queue : nat;
  executor_count : Z;
  executors : list string;
  grouped_events : list nat;
  thread_specific_queue : gmap string nat;
  dict_store : gmap nat (gmap string (list object));
  queue_store : gmap nat Queue;
  held_locks : list nat;
  next_lock : nat
}.

Definition set_consumers (f : gmap object (list string) -> gmap object (list string)) (b : bus) : bus :=
  mkBus (subscribers_thread_safe b) (topics b) (f (consumers b)) (consumers_lock b)
    (shutdown_lock b) (subscriber_locks b) (keep_running b) (stop_time b)
    (index_locks b) (event_queue b) (executor_count b) (executors b)
    (grouped_events b) (thread_specific_queue b) (dict_store b) (queue_store b)
    (held_locks b) (next_lock b).

Definition set_subscriber_locks (f : gmap object nat -> gmap object nat) (b : bus) : bus :=
  mkBus (subscribers_thread_safe b) (topics b) (consumers b) (consumers_lock b)
    (shutdown_lock b) (f (subscriber_locks b)) (keep_running b) (stop_time b)
    (index_locks b) (event_queue b) (executor_count b) (executors b)
    (grouped_events b) (thread_specific_queue b) (dict_store b) (queue_store b)
    (held_locks b) (next_lock b).

Definition set_keep_running (v : bool) (b : bus) : bus :=
  mkBus (subscribers_thread_safe b) (topics b) (consumers b) (consumers_lock b)
    (shutdown_lock b) (subscriber_locks b) v (stop_time b)
    (index_locks b) (event_queue b) (executor_count b) (executors b)
    (grouped_events b) (thread_specific_queue b) (dict_store b) (queue_store b)
    (held_locks b) (next_lock b).

Definition set_stop_time (v : Q) (b : bus) : bus :=
  mkBus (subscribers_thread_safe b) (topics b) (consumers b) (consumers_lock b)
    (shutdown_lock b) (subscriber_locks b) (keep_running b) v
    (index_locks b) (event_queue b) (executor_count b) (executors b)
    (grouped_events b) (thread_specific_queue b) (dict_store b) (queue_store b)
    (held_locks b) (next_lock b).

Definition set_dict_store
    (f : gmap nat (gmap string (list object)) -> gmap nat (gmap string (list object)))
    (b : bus) : bus :=
  mkBus (subscribers_thread_safe b) (topics b) (consumers b) (consumers_lock b)
    (shutdown_lock b) (subscriber_locks b) (keep_running b) (stop_time b)
    (index_locks b) (event_queue b) (executor_count b) (executors b)
    (grouped_events b) (thread_specific_queue b) (f (dict_store b)) (queue_store b)
    (held_locks b) (next_lock b).

Definition set_queue_store (f : gmap nat Queue -> gmap nat Queue) (b : bus) : bus :=
  mkBus (subscribers_thread_safe b) (topics b) (consumers b) (consumers_lock b)
    (shutdown_lock b) (subscriber_locks b) (keep_running b) (stop_time b)
    (index_locks b) (event_queue b) (executor_count b) (executors b)
    (grouped_events b) (thread_specific_queue b) (dict_store b) (f (queue_store b))
    (held_locks b) (next_lock b).

Definition set_held_locks (f : list nat -> list nat) (b : bus) : bus :=
  mkBus (subscribers_thread_safe b) (topics b) (consumers b) (consumers_lock b)
    (shutdown_lock b) (subscriber_locks b) (keep_running b) (stop_time b)
    (index_locks b) (event_queue b) (executor_count b) (executors b)
    (grouped_events b) (thread_specific_queue b) (dict_store b) (queue_store b)
    (f (held_locks b)) (next_lock b).

Definition set_next_lock (v : nat) (b : bus) : bus :=
  mkBus (subscribers_thread_safe b) (topics b) (consumers b) (consumers_lock b)
    (shutdown_lock b) (subscriber_locks b) (keep_running b) (stop_time b)
    (index_locks b) (event_queue b) (executor_count b) (executors b)
    (grouped_events b) (thread_specific_queue b) (dict_store b) (queue_store b)
    (held_locks b) v.

(** ** Outcomes of a method call *)

Inductive exn := TypeError | ZeroDivisionError | IndexError | KeyError | SystemExit.

(** [isinstance(e, Exception)]: [SystemExit] derives from [BaseException]
    and not from [Exception]. *)
Definition isinstance_Exception (e : exn) : bool :=
  match e with SystemExit => false | _ => true end.

Inductive outcome (A : Type) :=
  | Return (a : A) (b : bus)
  | Raise (e : exn) (b : bus)
  | Blocked (b : bus).
Arguments Return {A} a b.
Arguments Raise {A} e b.
Arguments Blocked {A} b.

Definition M (A : Type) : Type := bus -> outcome A.

Definition ret {A} (a : A) : M A := fun b => Return a b.

Definition bind {A B} (m : M A) (k : A -> M B) : M B :=
  fun b =>
    match m b with
    | Return a b' => k a b'
    | Raise e b' => Raise e b'
    | Blocked b' => Blocked b'
    end.

Definition raise {A} (e : exn) : M A := fun b => Raise e b.
Definition get : M bus := fun b => Return b b.
Definition modify (f : bus -> bus) : M unit := fun b => Return tt (f b).

Declare Scope py_scope.
Delimit Scope py_scope with py.
Notation "'let*' x := m 'in' k" := (bind m (fun x => k))
  (at level 10, x name, m at level 100, k at level 200) : py_scope.
Notation "m ;; k" := (bind m (fun _ => k))
  (at level 100, k at level 200, right associativity) : py_scope.
Local Open Scope py_scope.

(** [for x in xs: body] *)
Fixpoint for_each {A} (xs : list A) (body : A -> M unit) : M unit :=
  match xs with
  | [] => ret tt
  | x :: xs' => body x ;; for_each xs' body
  end.

(** [seq[i]] on a Python list: negative indices count from the end. *)
Definition py_index {A} (l : list A) (i : Z) : option A :=
  if 0 <=? i then l !! Z.to_nat i
  else if 0 <=? Z.of_nat (length l) + i then l !! Z.to_nat (Z.of_nat (length l) + i)
  else None.

Definition list_getitem {A} (l : list A) (i : Z) : M A :=
  match py_index l i with
  | Some x => ret x
  | None => raise IndexError
  end.

(** *** Locks *)

Definition acquire (l : nat) : M unit :=
  fun b =>
    if decide (l ∈ held_locks b) then Blocked b
    else Return tt (set_held_locks (cons l) b).

Fixpoint remove_first {A} `{EqDecision A} (x : A) (l : list A) : list A :=
  match l with
  | [] => []
  | y :: l' => if decide (x = y) then l' else y :: remove_first x l'
  end.

Definition release (l : nat) (b : bus) : bus :=
  set_held_locks (remove_first l) b.

(** [with lock: body] releases the lock however the body ends. *)
Definition with_lock {A} (l : nat) (body : M A) : M A :=
  fun b =>
    match acquire l b with
    | Return _ b1 =>
        match body b1 with
        | Return a b2 => Return a (release l b2)
        | Raise e b2 => Raise e (release l b2)
        | Blocked b2 => Blocked b2
        end
    | Raise e b1 => Raise e b1
    | Blocked b1 => Blocked b1
    end.

(** [Lock()] *)
Definition new_lock : M nat :=
  fun b => Return (next_lock b) (set_next_lock (S (next_lock b)) b).

(** *** Queues ([queue.Queue]) *)

(** [Queue.full()]: a queue whose [maxsize] is zero or negative is unbounded. *)
Definition queue_full (q : Queue) : bool :=
  (0 <? maxsize q) && (maxsize q <=? Z.of_nat (length (items q))).

(** [queue.put(item)]: blocks while the queue is full. *)
Definition queue_put (r : nat) (e : event) : M unit :=
  fun b =>
    match queue_store b !! r with
    | Some q =>
        if queue_full q then Blocked b
        else Return tt
               (set_queue_store (insert r (mkQueue (maxsize q) (items q ++ [e]))) b)
    | None => Raise KeyError b
    end.

(** [queue.get(timeout=t)] followed by the [except Empty] clause of the
    caller: the head of the queue, or [None] when the queue stays empty for
    the whole timeout. *)
Definition queue_get (r : nat) : M (option event) :=
  fun b =>
    match queue_store b !! r with
    | Some q =>
        match items q with
        | e :: rest =>
            Return (Some e) (set_queue_store (insert r (mkQueue (maxsize q) rest)) b)
        | [] => Return None b
        end
    | None => Raise KeyError b
    end.

Definition queue_empty (r : nat) : M bool :=
  fun b =>
    match queue_store b !! r with
    | Some q => Return (match items q with [] => true | _ => false end) b
    | None => Raise KeyError b
    end.

(** ** AsynchronousEventBus *)

(** ['executor_thread_' + str(i)] *)
Definition executor_name (i : nat) : string :=
  ("executor_thread_" ++ NilZero.string_of_uint (Nat.to_uint i))%string.

(** [__init__]. The shard dictionary [{}] is evaluated once and the list
    repetition copies the reference, as it does for the one [Lock()] of
    [index_locks]. Locks 0, 1 and 2 are [consumers_lock], [shutdown_lock]
    and the index lock; queue 0 is [event_queue] and queue [i + 1] is the
    queue the loop creates for executor [i]. A thread is represented by
    its name; what a started thread does is a sequence of calls of
    [executor_turn] with that name. The registration of [shutdown] with
    [atexit] is not part of the state. *)
Definition __init__ (max_queued_event : Z) (executor_count : Z)
    (subscribers_thread_safe : bool) : bus :=
  let count := Z.min executor_count MAX_EXECUTOR_COUNT in
  let rng := seq 0 (Z.to_nat count) in
  {| subscribers_thread_safe := subscribers_thread_safe;
     topics := replicate (Z.to_nat MAX_TOPIC_INDEX) 0%nat;
     consumers := ∅;
     consumers_lock := 0%nat;
     shutdown_lock := 1%nat;
     subscriber_locks := ∅;
     keep_running := true;
     stop_time := 0%Q;
     index_locks := replicate (Z.to_nat MAX_TOPIC_INDEX) 2%nat;
     event_queue := 0%nat;
     executor_count := count;
     executors := map executor_name rng;
     grouped_events := map S rng;
     thread_specific_queue :=
       fold_left (fun m i => <[executor_name i := S i]> m) rng ∅;
     dict_store := {[ 0%nat := ∅ ]};
     queue_store :=
       fold_left (fun m i => <[S i := mkQueue 0 []]> m) rng
         {[ 0%nat := mkQueue max_queued_event [] ]};
     held_locks := [];
     next_lock := 3%nat |}.

Definition _get_topic_index (topic : string) : Z :=
  Z.land (get_crc32 topic) (MAX_TOPIC_INDEX - 1).

(** [self.topics[indexval]], dereferenced. *)
Definition shard (indexval : Z) : M (nat * gmap string (list object)) :=
  let* b := get in
  let* r := list_getitem (topics b) indexval in
  match dict_store b !! r with
  | Some d => ret (r, d)
  | None => raise KeyError
  end.

Definition _choose_queue (eventobj : event) : M nat :=
  let ordered := get_ordered eventobj in
  match ordered with
  | Some ordered =>
      let* b := get in
      if executor_count b =? 0 then raise ZeroDivisionError
      else
        let indx :=
          Z.land (Z.abs (get_crc32 ordered)) (MAX_EXECUTOR_COUNT - 1)
            mod executor_count b in
        let* queue := list_getitem (grouped_events b) indx in
        ret queue
  | None =>
      let* b := get in
      ret (event_queue b)
  end.

Definition post (eventobj : object) : M bool :=
  match isinstance_Event eventobj with
  | None => ret false
  | Some ev =>
      let* b := get in
      if negb (keep_running b) then ret false
      else
        let* queue := _choose_queue ev in
        queue_put queue ev ;;
        ret true
  end.

(** [register_consumer] returns [False] for an object that is not a
    subscriber and falls off its end ([None]) otherwise. *)
Definition register_consumer (consumer : object) (topic : string) : M (option bool) :=
  if negb (isinstance_Subscriber consumer) then ret (Some false)
  else
    let indexval := _get_topic_index topic in
    let* b := get in
    with_lock (consumers_lock b)
      ((let* lk := list_getitem (index_locks b) indexval in
        with_lock lk
          (let* rd := shard indexval in
           let '(r, d) := rd in
           match d !! topic with
           | None =>
               modify (set_dict_store (insert r (<[topic := [consumer]]> d)))
           | Some l =>
               if decide (consumer ∈ l) then ret tt
               else modify (set_dict_store (insert r (<[topic := l ++ [consumer]]> d)))
           end)) ;;
       (let* b1 := get in
        match consumers b1 !! consumer with
        | None => modify (set_consumers (insert consumer [topic]))
        | Some ts =>
            if decide (topic ∈ ts) then ret tt
            else modify (set_consumers (insert consumer (ts ++ [topic])))
        end) ;;
       (let* b2 := get in
        if negb (subscribers_thread_safe b2)
           && negb (bool_decide (is_Some (subscriber_locks b2 !! consumer)))
        then
          let* lk := new_lock in
          modify (set_subscriber_locks (insert consumer lk))
        else ret tt) ;;
       ret None).

Definition register_consumer_topics (consumer : object) (topic_list : list string) : M unit :=
  for_each topic_list (fun topic => register_consumer consumer topic ;; ret tt).

(** [unregister_consumer]. [subscribed_topics] stays [None] when the
    consumer is not a key of [self.consumers]; iterating over [None] raises
    [TypeError]. *)
Definition unregister_consumer (consumer : object) : M unit :=
  let* b := get in
  with_lock (consumers_lock b)
    (let* b0 := get in
     let subscribed_topics := consumers b0 !! consumer in
     (match subscribed_topics with
      | Some _ => modify (set_consumers (delete consumer))
      | None => ret tt
      end) ;;
     (let* b1 := get in
      if subscribers_thread_safe b1
         && bool_decide (is_Some (subscriber_locks b1 !! consumer))
      then modify (set_subscriber_locks (delete consumer))
      else ret tt) ;;
     match subscribed_topics with
     | None => raise TypeError
     | Some subscribed_topics =>
         for_each subscribed_topics (fun topic =>
           let indexval := _get_topic_index topic in
           let* b2 := get in
           let* lk := list_getitem (index_locks b2) indexval in
           with_lock lk
             (let* rd := shard indexval in
              let '(r, d) := rd in
              match d !! topic with
              | Some l =>
                  if decide (consumer ∈ l) then
                    modify (set_dict_store
                              (insert r (<[topic := remove_first consumer l]> d))) ;;
                    let* rd' := shard indexval in
                    let '(r', d') := rd' in
                    match d' !! topic with
                    | Some l' =>
                        if (length l' =? 0)%nat
                        then modify (set_dict_store (insert r' (delete topic d')))
                        else ret tt
                    | None => raise KeyError
                    end
                  else ret tt
              | None => ret tt
              end))
     end).

Definition is_subscribed (consumer : object) (topic : string) : M bool :=
  if negb (isinstance_Subscriber consumer) then ret false
  else
    let indexval := _get_topic_index topic in
    let* b := get in
    let* lk := list_getitem (index_locks b) indexval in
    with_lock lk
      (let* rd := shard indexval in
       let '(_, d) := rd in
       match d !! topic with
       | Some l => ret (bool_decide (consumer ∈ l))
       | None => ret false
       end).

Definition _get_subscribers (topic : string) : M (list object) :=
  let indexval := _get_topic_index topic in
  let* b := get in
  let* lk := list_getitem (index_locks b) indexval in
  with_lock lk
    (let* rd := shard indexval in
     let '(_, d) := rd in
     match d !! topic with
     | Some l => ret l
     | None => ret []
     end).

(** [try: body except Exception: handler]. An exception that is not an
    [Exception] passes through. *)
Definition try_except {A} (body : M A) (handler : exn -> M A) : M A :=
  fun b =>
    match body b with
    | Raise e b' => if isinstance_Exception e then handler e b' else Raise e b'
    | o => o
    end.

(** [current_thread().getName()] is the argument [name]. *)
Definition _choose_queue_to_pull (name : string) : M (nat * Q) :=
  let* b := get in
  match thread_specific_queue b !! name with
  | None => raise KeyError
  | Some thread_specific_queue =>
      let* empty := queue_empty thread_specific_queue in
      if negb empty then
        let timeout := 0%Q in
        ret (thread_specific_queue, timeout)
      else
        let timeout := (1 # 10)%Q in
        ret (event_queue b, timeout)
  end.

Definition _get_next_event (name : string) : M (option event) :=
  let* qt := _choose_queue_to_pull name in
  let '(queue, timeout) := qt in
  try_except (queue_get queue) (fun _ => ret None).

(** The loop of [_process_event]. [process subscr eventobj] is the call
    [subscr.process(eventobj)], code of the subscriber: it may return,
    raise, block, and use the bus. An [Exception] it raises is logged; any
    other exception leaves the loop, and [lock.release()] is not reached.
    A subscriber without a lock is skipped ([continue]) when subscribers
    are not thread safe. The result is the list of the subscribers on which
    [process] was called and came back, in call order. *)
Fixpoint process_loop (process : object -> event -> M unit) (eventobj : event)
    (subscrs : list object) : M (list object) :=
  match subscrs with
  | [] => ret []
  | subscr :: rest =>
      let* b := get in
      if negb (subscribers_thread_safe b) then
        match subscriber_locks b !! subscr with
        | None => process_loop process eventobj rest
        | Some lock =>
            acquire lock ;;
            try_except (process subscr eventobj) (fun _ => ret tt) ;;
            modify (release lock) ;;
            let* called := process_loop process eventobj rest in
            ret (subscr :: called)
        end
      else
        try_except (process subscr eventobj) (fun _ => ret tt) ;;
        let* called := process_loop process eventobj rest in
        ret (subscr :: called)
  end.

Definition _process_event (process : object -> event -> M unit) (eventobj : event) :
    M (list object) :=
  let* subscrs := _get_subscribers (get_topic eventobj) in
  process_loop process eventobj subscrs.

Definition Qlt_bool (x y : Q) : bool := negb (Qle_bool y x).

(** [_thread_should_end]; [now] is the value of [time()]. *)
Definition _thread_should_end (now : Q) (b : bus) : bool :=
  Qlt_bool 0 (stop_time b) && Qlt_bool now (stop_time b).

(** One turn of the [while] loop of [__call__]: [false] when the loop
    ends, [true] when it goes on. *)
Definition executor_turn (process : object -> event -> M unit) (name : string) (now : Q) :
    M bool :=
  let* b := get in
  if _thread_should_end now b then ret false
  else
    let* eventobj := _get_next_event name in
    match eventobj with
    | Some eventobj => _process_event process eventobj ;; ret true
    | None => ret true
    end.


(** [shutdown] up to its last loop; [now] is the value of [time()]. The
    result is the list of the threads that the loop of [thrd.join()] then
    waits for, in this order: none after the early return. The wait itself
    is [join_all]; the bus is in the state [shutdown] leaves for as long as
    it lasts. *)
Definition shutdown (now : Q) : M (list string) :=
  let* b := get in
  let* returned :=
    with_lock (shutdown_lock b)
      (let* b1 := get in
       if negb (keep_running b1) then ret true
       else modify (set_keep_running false) ;; ret false) in
  if returned : bool then ret []
  else
    modify (set_stop_time (now + 2)%Q) ;;
    let* b2 := get in
    ret (executors b2).



(** ** Runs of the bus

    A call is one use of the bus by a client or one turn of an executor
    thread. A state is reachable when a sequence of completed calls leads to
    it from a freshly constructed bus; a blocked call has not completed.
    In a run the subscribers are [quiet]: [process] comes back and has not
    used the bus (an [Exception] it raises is logged and leaves the same
    state). [CallShutdown] is [shutdown] up to its joins: the other threads
    see the state it leaves while the caller waits for the executors. *)

Definition quiet : object -> event -> M unit := fun _ _ => ret tt.

Inductive call :=
  | CallPost (eventobj : object)
  | CallRegisterConsumer (consumer : object) (topic : string)
  | CallRegisterConsumerTopics (consumer : object) (topic_list : list string)
  | CallUnregisterConsumer (consumer : object)
  | CallIsSubscribed (consumer : object) (topic : string)
  | CallShutdown (now : Q)
  | CallExecutorTurn (name : string) (now : Q).

(** The state in which a call that returned or raised leaves the bus. *)
Definition final {A} (o : outcome A) : option bus :=
  match o with
  | Return _ b => Some b
  | Raise _ b => Some b
  | Blocked _ => None
  end.

Definition run (c : call) (b : bus) : option bus :=
  match c with
  | CallPost o => final (post o b)
  | CallRegisterConsumer c t => final (register_consumer c t b)
  | CallRegisterConsumerTopics c ts => final (register_consumer_topics c ts b)
  | CallUnregisterConsumer c => final (unregister_consumer c b)
  | CallIsSubscribed c t => final (is_subscribed c t b)
  | CallShutdown now => final (shutdown now b)
  | CallExecutorTurn name now => final (executor_turn quiet name now b)
  end.

Definition step (b b' : bus) : Prop := exists c, run c b = Some b'.

Definition reachable (b : bus) : Prop :=
  exists max_queued_event executor_count subscribers_thread_safe,
    rtc step (__init__ max_queued_event executor_count subscribers_thread_safe) b.

(** The state after a list of calls, when all of them complete. *)
Fixpoint run_all (cs : list call) (b : bus) : option bus :=
  match cs with
  | [] => Some b
  | c :: cs' => match run c b with Some b' => run_all cs' b' | None => None end
  end.

(** All the calls of the list complete, one after the other. *)
Definition completes (cs : list call) (b : bus) : bool :=
  match run_all cs b with Some _ => true | None => false end.

(** The state after the calls of the list (the state itself when one of
    them blocks). *)
Definition after (cs : list call) (b : bus) : bus :=
  match run_all cs b with Some b' => b' | None => b end.

(** * Vocabulary of the properties

    Relations between the states before and after a call, the invariant of
    the registry, and the net effect of the registry methods on a state in
    which no lock is held. *)

(** [preserves R m]: when [m] returns or raises from a state [b], the state
    it ends in is related to [b] by [R]. *)
Definition preserves {A} (R : relation bus) (m : M A) : Prop :=
  forall b,
    match m b with
    | Return _ b' => R b b'
    | Raise _ b' => R b b'
    | Blocked _ => True
    end.

(** The same locks are held. *)
Definition same_held (b b' : bus) : Prop := held_locks b' = held_locks b.

(** The attributes that [__init__] assigns and no method assigns again. *)
Definition same_static (b b' : bus) : Prop :=
  subscribers_thread_safe b' = subscribers_thread_safe b
  /\ topics b' = topics b
  /\ consumers_lock b' = consumers_lock b
  /\ shutdown_lock b' = shutdown_lock b
  /\ index_locks b' = index_locks b
  /\ event_queue b' = event_queue b
  /\ executor_count b' = executor_count b
  /\ executors b' = executors b
  /\ grouped_events b' = grouped_events b
  /\ thread_specific_queue b' = thread_specific_queue b.

(** A queue with a positive [maxsize] holds at most [maxsize] items. *)
Definition within_capacity (q : Queue) : Prop :=
  0 < maxsize q -> Z.of_nat (length (items q)) <= maxsize q.

(** Every queue is still there, with its [maxsize], and within its
    capacity if it was. *)
Definition queues_kept (b b' : bus) : Prop :=
  forall r q, queue_store b !! r = Some q ->
    exists q', queue_store b' !! r = Some q'
      /\ maxsize q' = maxsize q
      /\ (within_capacity q -> within_capacity q').

(** The state between two calls: no lock is held, the sixteen entries of
    [topics] are one reference [r] to the dictionary [d] of the store, and
    the sixteen entries of [index_locks] are one lock [l], which is not
    [consumers_lock]. *)
Record quiescent (b : bus) (r : nat) (d : gmap string (list object)) (l : nat) : Prop := {
  q_held : held_locks b = [];
  q_topics : topics b = replicate 16 r;
  q_dict : dict_store b !! r = Some d;
  q_index_locks : index_locks b = replicate 16 l;
  q_lock_ne : l <> consumers_lock b
}.

(** The shard dictionary after [register_consumer]. *)
Definition register_dict (c : object) (t : string) (d : gmap string (list object)) :
    gmap string (list object) :=
  match d !! t with
  | None => <[t := [c]]> d
  | Some l => if decide (c ∈ l) then d else <[t := l ++ [c]]> d
  end.

(** [self.consumers] after [register_consumer]. *)
Definition register_topics (c : object) (t : string) (m : gmap object (list string)) :
    gmap object (list string) :=
  match m !! c with
  | None => <[c := [t]]> m
  | Some ts => if decide (t ∈ ts) then m else <[c := ts ++ [t]]> m
  end.

(** [self.subscriber_locks] after [register_consumer]. *)
Definition register_locks (c : object) (b : bus) : bus :=
  if negb (subscribers_thread_safe b)
     && negb (bool_decide (is_Some (subscriber_locks b !! c)))
  then set_subscriber_locks (insert c (next_lock b)) (set_next_lock (S (next_lock b)) b)
  else b.

(** The state after [register_consumer] of a subscriber, when [r] is the
    reference of the shard dictionary and [d] the dictionary before. *)
Definition register_effect (r : nat) (d : gmap string (list object))
    (c : object) (t : string) (b : bus) : bus :=
  register_locks c
    (set_consumers (register_topics c t)
       (set_dict_store (insert r (register_dict c t d)) b)).

(** The shard dictionary after one turn of the loop of
    [unregister_consumer]. *)
Definition unregister_dict (c : object) (t : string) (d : gmap string (list object)) :
    gmap string (list object) :=
  match d !! t with
  | Some l =>
      if decide (c ∈ l) then
        let l' := remove_first c l in
        if (length l' =? 0)%nat then delete t d else <[t := l']> d
      else d
  | None => d
  end.

(** [self.subscriber_locks] after [unregister_consumer]. *)
Definition unregister_locks (c : object) (b : bus) : bus :=
  if subscribers_thread_safe b && bool_decide (is_Some (subscriber_locks b !! c))
  then set_subscriber_locks (delete c) b
  else b.

(** The body of the loop of [unregister_consumer]. *)
Definition unregister_body (consumer : object) (topic : string) : M unit :=
  let indexval := _get_topic_index topic in
  let* b2 := get in
  let* lk := list_getitem (index_locks b2) indexval in
  with_lock lk
    (let* rd := shard indexval in
     let '(r, d) := rd in
     match d !! topic with
     | Some l =>
         if decide (consumer ∈ l) then
           modify (set_dict_store
                     (insert r (<[topic := remove_first consumer l]> d))) ;;
           let* rd' := shard indexval in
           let '(r', d') := rd' in
           match d' !! topic with
           | Some l' =>
               if (length l' =? 0)%nat
               then modify (set_dict_store (insert r' (delete topic d')))
               else ret tt
           | None => raise KeyError
           end
         else ret tt
     | None => ret tt
     end).

(** The state after [unregister_consumer] of a consumer registered to the
    topics [ts]. *)
Definition unregister_effect (r : nat) (d : gmap string (list object))
    (c : object) (ts : list string) (b : bus) : bus :=
  set_dict_store (insert r (fold_left (fun d t => unregister_dict c t d) ts d))
    (unregister_locks c (set_consumers (delete c) b)).

(** The registry, the inverse map and the locks of the subscribers are the
    same. *)
Definition same_registry (b b' : bus) : Prop :=
  dict_store b' = dict_store b
  /\ consumers b' = consumers b
  /\ subscriber_locks b' = subscriber_locks b
  /\ next_lock b' = next_lock b.

(** No subscriber is twice in the list of a topic. *)
Definition nodup_lists (d : gmap string (list object)) : Prop :=
  forall t subs, d !! t = Some subs -> NoDup subs.

(** The invariant of the states between two calls. Locks of subscribers
    exist only when subscribers are not thread safe. *)
Record bus_inv (b : bus) : Prop := {
  inv_quiescent : exists r d l, quiescent b r d l /\ nodup_lists d;
  inv_guards : subscribers_thread_safe b = true -> subscriber_locks b = ∅
}.

(** The consumer [c] is not in the list of the topic [t]. *)
Definition absent_at (c : object) (t : string) (d : gmap string (list object)) : Prop :=
  forall subs, d !! t = Some subs -> c ∉ subs.

(** The index of the lane of an ordering key. *)
Definition lane_index (key : string) (count : Z) : Z :=
  Z.land (Z.abs (get_crc32 key)) (MAX_EXECUTOR_COUNT - 1) mod count.

(** The state after [queue.put(ev)] on the queue [q] at reference [r]. *)
Definition enqueued (r : nat) (q : Queue) (ev : event) (b : bus) : bus :=
  set_queue_store (insert r (mkQueue (maxsize q) (items q ++ [ev]))) b.

(** [qsize()] of the queue at reference [r]. *)
Definition queue_length (b : bus) (r : nat) : nat :=
  match queue_store b !! r with
  | Some q => length (items q)
  | None => 0
  end.

(** The events queued in the bus: the shared queue and the queues of the
    executors. *)
Definition total_queued (b : bus) : nat :=
  queue_length b (event_queue b) + sum_list (map (queue_length b) (grouped_events b)).

(** * Properties *)

Arguments get_crc32 : simpl never.
Arguments _get_topic_index : simpl never.

(** ** Indices *)

Lemma _get_topic_index_range (topic : string) :
  0 <= _get_topic_index topic < MAX_TOPIC_INDEX.
Proof.
  unfold _get_topic_index, MAX_TOPIC_INDEX. change (16 - 1) with (Z.ones 4).
  rewrite Z.land_ones by lia. apply Z.mod_pos_bound. lia.
Qed.

Lemma py_index_replicate {A} (n : nat) (x : A) (i : Z) :
  0 <= i < Z.of_nat n -> py_index (replicate n x) i = Some x.
Proof.
  intros Hi. unfold py_index.
  destruct (Z.leb_spec 0 i) as [_ | ?]; [|lia].
  apply lookup_replicate_2. lia.
Qed.

Lemma list_getitem_replicate {A} (n : nat) (x : A) (i : Z) (b : bus) :
  0 <= i < Z.of_nat n -> list_getitem (replicate n x) i b = Return x b.
Proof.
  intros Hi. unfold list_getitem. rewrite py_index_replicate by done. reflexivity.
Qed.

(** ** Relations that every call preserves

    [preserves R m]: when [m] completes (returns or raises) from a state
    [b], the final state is related to [b] by [R]. The rules follow the
    structure of the code; what a relation has to satisfy at the
    primitives is a hypothesis of the rule of each method. *)

Section preserves.
Context (R : relation bus) `{!PreOrder R}.

Lemma preserves_ret {A} (a : A) : preserves R (ret a).
Proof. intros b. simpl. reflexivity. Qed.

Lemma preserves_raise {A} (e : exn) : preserves R (@raise A e).
Proof. intros b. simpl. reflexivity. Qed.

Lemma preserves_get : preserves R get.
Proof. intros b. simpl. reflexivity. Qed.

Lemma preserves_bind {A B} (m : M A) (k : A -> M B) :
  preserves R m -> (forall a, preserves R (k a)) -> preserves R (bind m k).
Proof.
  intros Hm Hk b. unfold bind. specialize (Hm b).
  destruct (m b) as [a b1 | e b1 | b1]; try done.
  specialize (Hk a b1). destruct (k a b1); try done; by etrans.
Qed.

Lemma preserves_modify (f : bus -> bus) :
  (forall b, R b (f b)) -> preserves R (modify f).
Proof. intros Hf b. apply Hf. Qed.

Lemma preserves_list_getitem {A} (l : list A) (i : Z) :
  preserves R (list_getitem l i).
Proof. intros b. unfold list_getitem. destruct (py_index l i); simpl; reflexivity. Qed.

Lemma preserves_for_each {A} (xs : list A) (body : A -> M unit) :
  (forall x, preserves R (body x)) -> preserves R (for_each xs body).
Proof.
  intros Hbody. induction xs as [|x xs IH]; simpl.
  - apply preserves_ret.
  - apply preserves_bind; [apply Hbody | intros _; apply IH].
Qed.

Lemma preserves_try_except {A} (body : M A) (handler : exn -> M A) :
  preserves R body -> (forall e, preserves R (handler e)) ->
  preserves R (try_except body handler).
Proof.
  intros Hb Hh b. unfold try_except. specialize (Hb b).
  destruct (body b) as [a b1 | e b1 | b1]; try done.
  destruct (isinstance_Exception e); [|done].
  specialize (Hh e b1). destruct (handler e b1); try done; by etrans.
Qed.

Lemma preserves_shard (i : Z) : preserves R (shard i).
Proof.
  unfold shard. apply preserves_bind; [apply preserves_get | intros b0].
  apply preserves_bind; [apply preserves_list_getitem | intros r].
  intros b. destruct (dict_store b0 !! r); simpl; reflexivity.
Qed.

Lemma preserves_queue_empty (r : nat) : preserves R (queue_empty r).
Proof.
  intros b. unfold queue_empty. destruct (queue_store b !! r); simpl; reflexivity.
Qed.

(** What the relation has to satisfy at the locks. *)
Hypothesis R_with_lock :
  forall A (l : nat) (body : M A), preserves R body -> preserves R (with_lock l body).
Hypothesis R_lock_unlock :
  forall A (l : nat) (k : M A),
    preserves R k -> preserves R (acquire l ;; modify (release l) ;; k).

Lemma preserves__choose_queue (e : event) : preserves R (_choose_queue e).
Proof.
  unfold _choose_queue. destruct (get_ordered e).
  - apply preserves_bind; [apply preserves_get | intros b0].
    destruct (executor_count b0 =? 0); [apply preserves_raise|].
    apply preserves_bind; [apply preserves_list_getitem | intros q; apply preserves_ret].
  - apply preserves_bind; [apply preserves_get | intros b0; apply preserves_ret].
Qed.

Lemma preserves_post (o : object) :
  (forall r e, preserves R (queue_put r e)) -> preserves R (post o).
Proof.
  intros Hput. unfold post. destruct (isinstance_Event o) as [ev|]; [|apply preserves_ret].
  apply preserves_bind; [apply preserves_get | intros b0].
  destruct (negb (keep_running b0)); [apply preserves_ret|].
  apply preserves_bind; [apply preserves__choose_queue | intros q].
  apply preserves_bind; [apply Hput | intros _; apply preserves_ret].
Qed.

Lemma preserves_is_subscribed (c : object) (t : string) :
  preserves R (is_subscribed c t).
Proof.
  unfold is_subscribed. destruct (negb (isinstance_Subscriber c)); [apply preserves_ret|].
  apply preserves_bind; [apply preserves_get | intros b0].
  apply preserves_bind; [apply preserves_list_getitem | intros lk].
  apply R_with_lock.
  apply preserves_bind; [apply preserves_shard | intros [r d]].
  destruct (d !! t); apply preserves_ret.
Qed.

Lemma preserves__get_subscribers (t : string) : preserves R (_get_subscribers t).
Proof.
  unfold _get_subscribers.
  apply preserves_bind; [apply preserves_get | intros b0].
  apply preserves_bind; [apply preserves_list_getitem | intros lk].
  apply R_with_lock.
  apply preserves_bind; [apply preserves_shard | intros [r d]].
  destruct (d !! t); apply preserves_ret.
Qed.

Lemma preserves_process_loop (ev : event) (subscrs : list object) :
  preserves R (process_loop quiet ev subscrs).
Proof.
  induction subscrs as [|s rest IH]; simpl; [apply preserves_ret|].
  apply preserves_bind; [apply preserves_get | intros b0].
  destruct (negb (subscribers_thread_safe b0)).
  - destruct (subscriber_locks b0 !! s) as [lock|]; [|apply IH].
    assert (preserves R (acquire lock ;; modify (release lock) ;;
                         let* called := process_loop quiet ev rest in
                         ret (s :: called))) as Hlu.
    { apply R_lock_unlock.
      apply preserves_bind; [apply IH | intros called; apply preserves_ret]. }
    intros b. specialize (Hlu b). unfold bind at 1. unfold bind at 1 in Hlu.
    destruct (acquire lock b); exact Hlu.
  - apply preserves_bind; [apply preserves_try_except; intros; apply preserves_ret|].
    intros _. apply preserves_bind; [apply IH | intros called; apply preserves_ret].
Qed.

Lemma preserves_executor_turn (name : string) (now : Q) :
  (forall r, preserves R (queue_get r)) -> preserves R (executor_turn quiet name now).
Proof.
  intros Hget. unfold executor_turn.
  apply preserves_bind; [apply preserves_get | intros b0].
  destruct (_thread_should_end now b0); [apply preserves_ret|].
  apply preserves_bind.
  - unfold _get_next_event. apply preserves_bind.
    + unfold _choose_queue_to_pull.
      apply preserves_bind; [apply preserves_get | intros b1].
      destruct (thread_specific_queue b1 !! name) as [q|]; [|apply preserves_raise].
      apply preserves_bind; [apply preserves_queue_empty | intros e].
      destruct (negb e); apply preserves_ret.
    + intros [q timeout]. apply preserves_try_except; [apply Hget|].
      intros _. apply preserves_ret.
  - intros [ev|]; [|apply preserves_ret].
    apply preserves_bind; [|intros _; apply preserves_ret].
    unfold _process_event.
    apply preserves_bind; [apply preserves__get_subscribers | intros l].
    apply preserves_process_loop.
Qed.

Lemma preserves_shutdown (now : Q) :
  (forall v b, R b (set_keep_running v b)) ->
  (forall v b, R b (set_stop_time v b)) ->
  preserves R (shutdown now).
Proof.
  intros Hk Hs. unfold shutdown.
  apply preserves_bind; [apply preserves_get | intros b0].
  apply preserves_bind.
  - apply R_with_lock.
    apply preserves_bind; [apply preserves_get | intros b1].
    destruct (negb (keep_running b1)); [apply preserves_ret|].
    apply preserves_bind; [apply preserves_modify, Hk | intros _; apply preserves_ret].
  - intros [|]; [apply preserves_ret|].
    apply preserves_bind; [apply preserves_modify, Hs | intros _].
    apply preserves_bind; [apply preserves_get | intros b2; apply preserves_ret].
Qed.

(** The methods that change the registry. *)
Hypothesis R_dict_store : forall f b, R b (set_dict_store f b).
Hypothesis R_consumers : forall f b, R b (set_consumers f b).
Hypothesis R_subscriber_locks : forall f b, R b (set_subscriber_locks f b).
Hypothesis R_next_lock : forall v b, R b (set_next_lock v b).

Lemma preserves_register_consumer (c : object) (t : string) :
  preserves R (register_consumer c t).
Proof.
  unfold register_consumer. destruct (negb (isinstance_Subscriber c)); [apply preserves_ret|].
  apply preserves_bind; [apply preserves_get | intros b0].
  apply R_with_lock.
  apply preserves_bind.
  { apply preserves_bind; [apply preserves_list_getitem | intros lk].
    apply R_with_lock.
    apply preserves_bind; [apply preserves_shard | intros [r d]].
    destruct (d !! t) as [l|]; [destruct (decide (c ∈ l))|];
      try apply preserves_ret; apply preserves_modify, R_dict_store. }
  intros _. apply preserves_bind.
  { apply preserves_bind; [apply preserves_get | intros b1].
    destruct (consumers b1 !! c) as [ts|]; [destruct (decide (t ∈ ts))|];
      try apply preserves_ret; apply preserves_modify, R_consumers. }
  intros _. apply preserves_bind; [|intros _; apply preserves_ret].
  apply preserves_bind; [apply preserves_get | intros b2].
  destruct (_ && _); [|apply preserves_ret].
  apply preserves_bind.
  - intros b. simpl. apply R_next_lock.
  - intros lk. apply preserves_modify, R_subscriber_locks.
Qed.

Lemma preserves_register_consumer_topics (c : object) (ts : list string) :
  preserves R (register_consumer_topics c ts).
Proof.
  unfold register_consumer_topics. apply preserves_for_each. intros t.
  apply preserves_bind; [apply preserves_register_consumer | intros _; apply preserves_ret].
Qed.

Lemma preserves_unregister_consumer (c : object) :
  preserves R (unregister_consumer c).
Proof.
  unfold unregister_consumer.
  apply preserves_bind; [apply preserves_get | intros b0].
  apply R_with_lock.
  apply preserves_bind; [apply preserves_get | intros b1].
  apply preserves_bind.
  { destruct (consumers b1 !! c); [apply preserves_modify, R_consumers | apply preserves_ret]. }
  intros _. apply preserves_bind.
  { apply preserves_bind; [apply preserves_get | intros b2].
    destruct (_ && _); [apply preserves_modify, R_subscriber_locks | apply preserves_ret]. }
  intros _. destruct (consumers b1 !! c) as [ts|]; [|apply preserves_raise].
  apply preserves_for_each. intros t.
  apply preserves_bind; [apply preserves_get | intros b2].
  apply preserves_bind; [apply preserves_list_getitem | intros lk].
  apply R_with_lock.
  apply preserves_bind; [apply preserves_shard | intros [r d]].
  destruct (d !! t) as [l|]; [|apply preserves_ret].
  destruct (decide (c ∈ l)); [|apply preserves_ret].
  apply preserves_bind; [apply preserves_modify, R_dict_store | intros _].
  apply preserves_bind; [apply preserves_shard | intros [r' d']].
  destruct (d' !! t) as [l'|]; [|apply preserves_raise].
  destruct (length l' =? 0)%nat; [apply preserves_modify, R_dict_store | apply preserves_ret].
Qed.

End preserves.

(** A relation that does not look at [held_locks] satisfies the two
    hypotheses on locks. *)
Lemma with_lock_neutral (R : relation bus) `{!PreOrder R} :
  (forall f b, R b (set_held_locks f b)) ->
  forall A (l : nat) (body : M A), preserves R body -> preserves R (with_lock l body).
Proof.
  intros Hn A l body Hbody b. unfold with_lock, acquire.
  destruct (decide (l ∈ held_locks b)); [done|].
  specialize (Hbody (set_held_locks (cons l) b)).
  destruct (body _) as [a b2 | e b2 | b2]; try done.
  - etrans; [apply Hn|]. etrans; [apply Hbody|]. apply Hn.
  - etrans; [apply Hn|]. etrans; [apply Hbody|]. apply Hn.
Qed.

Lemma lock_unlock_neutral (R : relation bus) `{!PreOrder R} :
  (forall f b, R b (set_held_locks f b)) ->
  forall A (l : nat) (k : M A),
    preserves R k -> preserves R (acquire l ;; modify (release l) ;; k).
Proof.
  intros Hn A l k Hk b. unfold bind, acquire, modify.
  destruct (decide (l ∈ held_locks b)); [done|].
  specialize (Hk (release l (set_held_locks (cons l) b))).
  assert (R b (release l (set_held_locks (cons l) b))) as Hb.
  { etrans; [apply Hn|]. apply Hn. }
  destruct (k _); try done; by etrans.
Qed.

(** Every completed call preserves a relation that holds at each update of
    a field and at the two operations that change a queue. *)
Lemma run_preserves (R : relation bus) `{!PreOrder R} :
  (forall A (l : nat) (body : M A), preserves R body -> preserves R (with_lock l body)) ->
  (forall A (l : nat) (k : M A),
      preserves R k -> preserves R (acquire l ;; modify (release l) ;; k)) ->
  (forall r e, preserves R (queue_put r e)) ->
  (forall r, preserves R (queue_get r)) ->
  (forall v b, R b (set_keep_running v b)) ->
  (forall v b, R b (set_stop_time v b)) ->
  (forall f b, R b (set_dict_store f b)) ->
  (forall f b, R b (set_consumers f b)) ->
  (forall f b, R b (set_subscriber_locks f b)) ->
  (forall v b, R b (set_next_lock v b)) ->
  forall c b b', run c b = Some b' -> R b b'.
Proof.
  intros Hwl Hlu Hput Hget Hk Hs Hd Hc Hsl Hn c b b' Hrun.
  assert (forall A (m : M A), preserves R m -> final (m b) = Some b' -> R b b') as Hfin.
  { intros A m Hm Hf. specialize (Hm b).
    destruct (m b); simpl in Hf; by simplify_eq. }
  destruct c; simpl in Hrun; eapply Hfin; try exact Hrun.
  - by apply preserves_post.
  - by apply preserves_register_consumer.
  - by apply preserves_register_consumer_topics.
  - by apply preserves_unregister_consumer.
  - by apply preserves_is_subscribed.
  - by apply preserves_shutdown.
  - by apply preserves_executor_turn.
Qed.

Lemma steps_preserve (R : relation bus) `{!PreOrder R} :
  (forall c b b', run c b = Some b' -> R b b') ->
  forall b b', rtc step b b' -> R b b'.
Proof.
  intros Hrun b b' Hsteps. induction Hsteps as [b | b b1 b2 [c Hc] _ IH].
  - reflexivity.
  - etrans; [by eapply Hrun | exact IH].
Qed.

(** *** No lock stays held *)

#[local] Instance same_held_preorder : PreOrder same_held.
Proof. split; [done | intros x y z; unfold same_held; congruence]. Qed.

Lemma remove_first_head {A} `{EqDecision A} (x : A) (l : list A) :
  remove_first x (x :: l) = l.
Proof. simpl. by rewrite decide_True. Qed.

Lemma run_same_held c b b' : run c b = Some b' -> same_held b b'.
Proof.
  apply run_preserves; try done.
  - apply _.
  - intros A l body Hbody b0. unfold with_lock, acquire.
    destruct (decide (l ∈ held_locks b0)); [done|].
    specialize (Hbody (set_held_locks (cons l) b0)). unfold same_held in *.
    destruct (body _) as [a b2 | e b2 | b2]; try done; simpl in *;
      rewrite Hbody; apply remove_first_head.
  - intros A l k Hk b0. unfold bind, acquire, modify.
    destruct (decide (l ∈ held_locks b0)); [done|].
    specialize (Hk (release l (set_held_locks (cons l) b0))). unfold same_held in *.
    change (held_locks (release l (set_held_locks (cons l) b0)))
      with (remove_first l (l :: held_locks b0)) in Hk.
    rewrite remove_first_head in Hk. exact Hk.
  - intros r e b0. unfold queue_put.
    destruct (queue_store b0 !! r) as [q|]; [destruct (queue_full q)|]; done.
  - intros r b0. unfold queue_get.
    destruct (queue_store b0 !! r) as [q|]; [destruct (items q)|]; done.
Qed.

(** *** The fields that no method assigns *)

#[local] Instance same_static_preorder : PreOrder same_static.
Proof.
  split; [by repeat split|].
  intros x y z Hxy Hyz. unfold same_static in *.
  repeat match goal with H : _ /\ _ |- _ => destruct H end.
  repeat split; congruence.
Qed.

Lemma run_same_static c b b' : run c b = Some b' -> same_static b b'.
Proof.
  apply run_preserves; try (intros; by repeat split).
  - apply _.
  - apply with_lock_neutral; [apply _ | intros; by repeat split].
  - apply lock_unlock_neutral; [apply _ | intros; by repeat split].
  - intros r e b0. unfold queue_put.
    destruct (queue_store b0 !! r) as [q|]; [destruct (queue_full q)|]; by repeat split.
  - intros r b0. unfold queue_get.
    destruct (queue_store b0 !! r) as [q|]; [destruct (items q)|]; by repeat split.
Qed.

(** *** Queues keep their capacity and respect it *)

#[local] Instance queues_kept_preorder : PreOrder queues_kept.
Proof.
  split.
  - intros b r q Hq. by exists q.
  - intros x y z Hxy Hyz r q Hq.
    destruct (Hxy r q Hq) as (q1 & Hq1 & Hm1 & Hc1).
    destruct (Hyz r q1 Hq1) as (q2 & Hq2 & Hm2 & Hc2).
    exists q2. repeat split; [done | congruence | tauto].
Qed.

Lemma queue_put_kept r e : preserves queues_kept (queue_put r e).
Proof.
  intros b. unfold queue_put.
  destruct (queue_store b !! r) as [q|] eqn:Hr; [|reflexivity].
  destruct (queue_full q) eqn:Hfull; [done|].
  intros r' q' Hq'. simpl. destruct (decide (r = r')) as [<-|Hne].
  - rewrite lookup_insert_eq. eexists; split; [done|]. simplify_eq. simpl.
    split; [done|]. intros _ Hpos. unfold within_capacity, queue_full in *.
    simpl in *. rewrite length_app. simpl.
    apply andb_false_iff in Hfull as [Hfull | Hfull]; lia.
  - rewrite lookup_insert_ne by done. by exists q'.
Qed.

Lemma queue_get_kept r : preserves queues_kept (queue_get r).
Proof.
  intros b. unfold queue_get.
  destruct (queue_store b !! r) as [q|] eqn:Hr; [|reflexivity].
  destruct (items q) as [|e rest] eqn:Hitems; [reflexivity|].
  intros r' q' Hq'. simpl. destruct (decide (r = r')) as [<-|Hne].
  - rewrite lookup_insert_eq. eexists; split; [done|]. simplify_eq. simpl.
    split; [done|]. unfold within_capacity. rewrite Hitems. simpl. lia.
  - rewrite lookup_insert_ne by done. by exists q'.
Qed.

Lemma queues_kept_same_store b b' :
  queue_store b' = queue_store b -> queues_kept b b'.
Proof. intros Heq r q Hq. exists q. by rewrite Heq. Qed.

Lemma run_queues_kept c b b' : run c b = Some b' -> queues_kept b b'.
Proof.
  apply run_preserves; try (intros; by apply queues_kept_same_store).
  - apply _.
  - apply with_lock_neutral; [apply _ | intros; by apply queues_kept_same_store].
  - apply lock_unlock_neutral; [apply _ | intros; by apply queues_kept_same_store].
  - apply queue_put_kept.
  - apply queue_get_kept.
Qed.

(** ** Reachable states *)

Lemma reachable_init mq ec safe : reachable (__init__ mq ec safe).
Proof. exists mq, ec, safe. apply rtc_refl. Qed.

Lemma reachable_run c b b' : reachable b -> run c b = Some b' -> reachable b'.
Proof.
  intros (mq & ec & safe & Hsteps) Hrun. exists mq, ec, safe.
  eapply rtc_r; [exact Hsteps | by exists c].
Qed.

Lemma reachable_run_all cs b b' : reachable b -> run_all cs b = Some b' -> reachable b'.
Proof.
  revert b. induction cs as [|c cs IH]; simpl; intros b Hb Hrun.
  - by simplify_eq.
  - destruct (run c b) as [b1|] eqn:Hc; [|done].
    eapply IH; [by eapply reachable_run | done].
Qed.

Lemma reachable_after cs b :
  reachable b -> completes cs b = true -> reachable (after cs b).
Proof.
  unfold completes, after. intros Hb Hc.
  destruct (run_all cs b) as [b'|] eqn:Hrun; [|done].
  by eapply reachable_run_all.
Qed.

Lemma reachable_held b : reachable b -> held_locks b = [].
Proof.
  intros (mq & ec & safe & Hsteps).
  apply (steps_preserve same_held run_same_held) in Hsteps. exact Hsteps.
Qed.

Lemma reachable_static mq ec safe b :
  rtc step (__init__ mq ec safe) b -> same_static (__init__ mq ec safe) b.
Proof. apply (steps_preserve same_static run_same_static). Qed.

(** ** Evaluating [with] blocks *)

Lemma with_lock_free {A} (l : nat) (body : M A) (b : bus) :
  l ∉ held_locks b ->
  with_lock l body b =
    match body (set_held_locks (cons l) b) with
    | Return a b2 => Return a (release l b2)
    | Raise e b2 => Raise e (release l b2)
    | Blocked b2 => Blocked b2
    end.
Proof. intros Hl. unfold with_lock, acquire. by rewrite decide_False. Qed.

Lemma release_acquired (l : nat) (b : bus) :
  release l (set_held_locks (cons l) b) = b.
Proof.
  destruct b. unfold release, set_held_locks. simpl. by rewrite decide_True.
Qed.

(** ** Shutdown *)

(** C9. A call of [shutdown] on a bus whose [keep_running] is already false
    returns normally, joins no thread and leaves the whole state of the bus,
    [stop_time] included, as it was. *)
Theorem shutdown_idempotent (b : bus) (now : Q) :
  reachable b -> keep_running b = false -> shutdown now b = Return [] b.
Proof.
  intros Hb Hk. apply reachable_held in Hb.
  unfold shutdown, bind, get.
  rewrite with_lock_free by (rewrite Hb; apply not_elem_of_nil).
  simpl. rewrite Hk. simpl. by rewrite release_acquired.
Qed.

(** The first call performs the transition: it clears [keep_running], sets
    the deadline two seconds ahead and joins every executor. *)
Lemma shutdown_first (b : bus) (now : Q) :
  reachable b -> keep_running b = true ->
  shutdown now b =
    Return (executors b) (set_stop_time (now + 2)%Q (set_keep_running false b)).
Proof.
  intros Hb Hk. apply reachable_held in Hb.
  unfold shutdown, bind, get.
  rewrite with_lock_free by (rewrite Hb; apply not_elem_of_nil).
  simpl. rewrite Hk. simpl. f_equal.
  destruct b; simpl in *. unfold release, set_stop_time, set_held_locks. simpl.
  by rewrite decide_True.
Qed.

Lemma shutdown_idempotent_witness :
  let b := set_stop_time (100 + 2)%Q (set_keep_running false (__init__ 10000 8 true)) in
  shutdown 200 b = Return [] b.
Proof.
  intros b. apply shutdown_idempotent; [|reflexivity].
  apply (reachable_run (CallShutdown 100) (__init__ 10000 8 true));
    [apply reachable_init|].
  unfold run. rewrite shutdown_first; [reflexivity | apply reachable_init | reflexivity].
Defined.

(** ** The registry *)

#[local] Arguments replicate : simpl never.

Lemma topic_index_in_range (t : string) : 0 <= _get_topic_index t < Z.of_nat 16.
Proof. pose proof (_get_topic_index_range t). unfold MAX_TOPIC_INDEX in *. lia. Qed.

Lemma shard_eval (i : Z) (b : bus) (r : nat) (d : gmap string (list object)) :
  topics b = replicate 16 r -> dict_store b !! r = Some d -> 0 <= i < Z.of_nat 16 ->
  shard i b = Return (r, d) b.
Proof.
  intros Ht Hd Hi. unfold shard, bind, get. rewrite Ht.
  rewrite list_getitem_replicate by done. by rewrite Hd.
Qed.

Ltac unfold_setters :=
  cbv [release set_held_locks set_dict_store set_consumers set_subscriber_locks
       set_next_lock set_keep_running set_stop_time set_queue_store
       subscribers_thread_safe topics consumers consumers_lock shutdown_lock
       subscriber_locks keep_running stop_time index_locks event_queue
       executor_count executors grouped_events thread_specific_queue dict_store
       queue_store held_locks next_lock modify ret raise];
  cbn [remove_first].

Lemma set_dict_store_id (r : nat) (d : gmap string (list object)) (b : bus) :
  dict_store b !! r = Some d -> set_dict_store (insert r d) b = b.
Proof. intros Hd. destruct b; unfold set_dict_store; simpl in *. by rewrite insert_id. Qed.

Lemma register_consumer_eval b r d l c t :
  quiescent b r d l -> isinstance_Subscriber c = true ->
  register_consumer c t b = Return None (register_effect r d c t b).
Proof.
  intros [Hh Ht Hd Hl Hne] Hc.
  unfold register_consumer. rewrite Hc. simpl. unfold bind at 1. unfold get at 1.
  rewrite with_lock_free by (rewrite Hh; apply not_elem_of_nil).
  unfold bind at 1. unfold bind at 1. simpl index_locks. rewrite Hl.
  rewrite list_getitem_replicate by apply topic_index_in_range.
  rewrite with_lock_free
    by (simpl; rewrite Hh; apply not_elem_of_cons; split; [done | apply not_elem_of_nil]).
  unfold bind at 1. erewrite shard_eval; [|simpl; done..| apply topic_index_in_range].
  set (b1 := set_held_locks (cons l) (set_held_locks (cons (consumers_lock b)) b)).
  assert (match d !! t with
          | Some l0 =>
              if decide (c ∈ l0) then ret ()
              else modify (set_dict_store <[r:=<[t:=l0 ++ [c]]> d]>)
          | None => modify (set_dict_store <[r:=<[t:=[c]]> d]>)
          end b1 = Return tt (set_dict_store (insert r (register_dict c t d)) b1)) as ->.
  { unfold register_dict. destruct (d !! t) as [l0|]; [|done].
    destruct (decide (c ∈ l0)); [|done].
    unfold ret. by rewrite set_dict_store_id. }
  subst b1. unfold register_effect, register_locks, register_topics.
  destruct b; simpl in *; subst. unfold bind, get, new_lock. unfold_setters.
  rewrite !decide_True by done.
  destruct (consumers0 !! c) as [ts|]; [destruct (decide (t ∈ ts))|]; simpl;
    destruct (negb subscribers_thread_safe0 && _); simpl; rewrite ?decide_True by done;
    reflexivity.
Qed.

Lemma unregister_body_eval b cl r d l c t :
  held_locks b = [cl] -> l <> cl ->
  topics b = replicate 16 r -> index_locks b = replicate 16 l ->
  dict_store b !! r = Some d ->
  unregister_body c t b = Return tt (set_dict_store (insert r (unregister_dict c t d)) b).
Proof.
  intros Hh Hne Ht Hl Hd. unfold unregister_body.
  unfold bind at 1. unfold get at 1. unfold bind at 1. rewrite Hl.
  rewrite list_getitem_replicate by apply topic_index_in_range.
  rewrite with_lock_free
    by (rewrite Hh; apply not_elem_of_cons; split; [done | apply not_elem_of_nil]).
  unfold bind at 1. erewrite shard_eval; [|simpl; done..| apply topic_index_in_range].
  unfold unregister_dict.
  destruct (d !! t) as [l0|] eqn:Hdt.
  - destruct (decide (c ∈ l0)) as [Hin|Hin].
    + unfold bind at 1. unfold modify at 1. unfold bind at 1.
      erewrite shard_eval;
        [|simpl; done | simpl; apply lookup_insert_eq | apply topic_index_in_range].
      rewrite lookup_insert_eq. cbn zeta.
      destruct (length (remove_first c l0) =? 0)%nat.
      * destruct b; simpl in *; subst. unfold_setters. rewrite decide_True by done.
        by rewrite insert_insert_eq, delete_insert_eq.
      * destruct b; simpl in *; subst. unfold_setters. by rewrite decide_True by done.
    + destruct b; simpl in *; subst. unfold_setters. rewrite decide_True by done.
      by rewrite insert_id.
  - destruct b; simpl in *; subst. unfold_setters. rewrite decide_True by done.
    by rewrite insert_id.
Qed.

Lemma unregister_loop_eval ts : forall b cl r d l c,
  held_locks b = [cl] -> l <> cl ->
  topics b = replicate 16 r -> index_locks b = replicate 16 l ->
  dict_store b !! r = Some d ->
  for_each ts (unregister_body c) b =
    Return tt
      (set_dict_store (insert r (fold_left (fun d t => unregister_dict c t d) ts d)) b).
Proof.
  induction ts as [|t ts IH]; intros b cl r d l c Hh Hne Ht Hl Hd.
  - simpl. unfold ret. by rewrite set_dict_store_id.
  - cbn [for_each fold_left]. unfold bind at 1.
    erewrite unregister_body_eval by done.
    erewrite IH; [|simpl; done..| simpl; apply lookup_insert_eq].
    f_equal. destruct b; unfold_setters. by rewrite insert_insert_eq.
Qed.

Lemma unregister_consumer_eval b r d l c :
  quiescent b r d l ->
  unregister_consumer c b =
    match consumers b !! c with
    | Some ts => Return tt (unregister_effect r d c ts b)
    | None => Raise TypeError (unregister_locks c b)
    end.
Proof.
  intros [Hh Ht Hd Hl Hne].
  unfold unregister_consumer. unfold bind at 1. unfold get at 1.
  rewrite with_lock_free by (rewrite Hh; apply not_elem_of_nil).
  unfold bind at 1. unfold get at 1.
  change (consumers (set_held_locks (cons (consumers_lock b)) b)) with (consumers b).
  destruct (consumers b !! c) as [ts|] eqn:Hc.
  - unfold bind at 1. unfold modify at 1. unfold bind at 1. unfold bind at 1.
    unfold get at 1.
    set (b1 := set_consumers (delete c) (set_held_locks (cons (consumers_lock b)) b)).
    assert ((if subscribers_thread_safe b1
                && bool_decide (is_Some (subscriber_locks b1 !! c))
             then modify (set_subscriber_locks (delete c)) else ret ()) b1
            = Return tt (unregister_locks c b1)) as ->.
    { unfold unregister_locks. by destruct (_ && _). }
    change (for_each ts _) with (for_each ts (unregister_body c)).
    erewrite (unregister_loop_eval ts _ (consumers_lock b) r d l).
    + unfold unregister_effect, unregister_locks. subst b1.
      destruct b; simpl in *; subst. unfold_setters.
      destruct (subscribers_thread_safe0 && _); unfold_setters;
        by rewrite decide_True by done.
    + subst b1. unfold unregister_locks. destruct (_ && _); simpl; by rewrite Hh.
    + done.
    + subst b1. unfold unregister_locks. by destruct (_ && _).
    + subst b1. unfold unregister_locks. by destruct (_ && _).
    + subst b1. unfold unregister_locks. by destruct (_ && _).
  - unfold bind at 1. unfold ret at 1. unfold bind at 1. unfold bind at 1.
    unfold get at 1.
    unfold unregister_locks.
    destruct b; simpl in *; subst. unfold_setters.
    destruct (subscribers_thread_safe0 && _); unfold_setters; unfold bind; unfold_setters;
      by rewrite decide_True by done.
Qed.

Lemma is_subscribed_eval b r d l c t :
  quiescent b r d l -> isinstance_Subscriber c = true ->
  is_subscribed c t b =
    Return (match d !! t with
            | Some subs => bool_decide (c ∈ subs)
            | None => false
            end) b.
Proof.
  intros [Hh Ht Hd Hl Hne] Hc. unfold is_subscribed. rewrite Hc. cbn [negb].
  unfold bind at 1. unfold get at 1. unfold bind at 1. rewrite Hl.
  rewrite list_getitem_replicate by apply topic_index_in_range.
  rewrite with_lock_free by (rewrite Hh; apply not_elem_of_nil).
  unfold bind at 1. erewrite shard_eval; [|simpl; done..| apply topic_index_in_range].
  destruct (d !! t); unfold ret; by rewrite release_acquired.
Qed.

(** *** Calls that leave the registry alone *)

#[local] Instance same_registry_preorder : PreOrder same_registry.
Proof.
  split; [by repeat split|].
  intros x y z (? & ? & ? & ?) (? & ? & ? & ?). repeat split; congruence.
Qed.

Lemma same_registry_with_lock A (l : nat) (body : M A) :
  preserves same_registry body -> preserves same_registry (with_lock l body).
Proof. apply with_lock_neutral; [apply _ | intros; by repeat split]. Qed.

Lemma same_registry_lock_unlock A (l : nat) (k : M A) :
  preserves same_registry k ->
  preserves same_registry (acquire l ;; modify (release l) ;; k).
Proof. apply lock_unlock_neutral; [apply _ | intros; by repeat split]. Qed.

Lemma run_same_registry c b b' :
  match c with
  | CallRegisterConsumer _ _ | CallRegisterConsumerTopics _ _
  | CallUnregisterConsumer _ => False
  | _ => True
  end ->
  run c b = Some b' -> same_registry b b'.
Proof.
  intros Hc Hrun.
  assert (forall A (m : M A), preserves same_registry m ->
            final (m b) = Some b' -> same_registry b b') as Hfin.
  { intros A m Hm Hf. specialize (Hm b).
    destruct (m b); simpl in Hf; by simplify_eq. }
  destruct c; try done; simpl in Hrun; eapply Hfin; try exact Hrun.
  - apply preserves_post; [apply _ |].
    intros r e b0. unfold queue_put.
    destruct (queue_store b0 !! r) as [q|]; [destruct (queue_full q)|]; by repeat split.
  - apply preserves_is_subscribed; [apply _ | apply same_registry_with_lock].
  - apply preserves_shutdown;
      [apply _ | apply same_registry_with_lock | intros; by repeat split..].
  - apply preserves_executor_turn;
      [apply _ | apply same_registry_with_lock | apply same_registry_lock_unlock |].
    intros r b0. unfold queue_get.
    destruct (queue_store b0 !! r) as [q|]; [destruct (items q)|]; by repeat split.
Qed.

(** *** The invariant of the registry *)

Lemma remove_first_sublist {A} `{EqDecision A} (x : A) (l : list A) :
  remove_first x l `sublist_of` l.
Proof.
  induction l as [|y l IH]; simpl; [done|].
  destruct (decide (x = y)); [by apply sublist_cons | by apply sublist_skip].
Qed.

Lemma remove_first_NoDup {A} `{EqDecision A} (x : A) (l : list A) :
  NoDup l -> NoDup (remove_first x l).
Proof. intros Hl. exact (sublist_NoDup _ _ Hl (remove_first_sublist x l)). Qed.

Lemma remove_first_not_elem {A} `{EqDecision A} (x : A) (l : list A) :
  NoDup l -> x ∉ remove_first x l.
Proof.
  induction l as [|y l IH]; simpl; intros Hnd; [apply not_elem_of_nil|].
  pose proof (NoDup_cons_1_1 _ _ Hnd) as Hy. apply NoDup_cons_1_2 in Hnd.
  destruct (decide (x = y)) as [->|Hne]; [done|].
  apply not_elem_of_cons. split; [done | by apply IH].
Qed.

Lemma nodup_register_dict c t d : nodup_lists d -> nodup_lists (register_dict c t d).
Proof.
  intros Hd t' subs. unfold register_dict.
  destruct (d !! t) as [l0|] eqn:Ht.
  - destruct (decide (c ∈ l0)); [apply Hd|].
    destruct (decide (t = t')) as [<-|Hne].
    + rewrite lookup_insert_eq. intros [= <-].
      apply list.NoDup_app. split_and!; [by eapply Hd | | apply NoDup_singleton].
      intros x Hx Hx'. apply list_elem_of_singleton in Hx'. by subst.
    + rewrite lookup_insert_ne by done. apply Hd.
  - destruct (decide (t = t')) as [<-|Hne].
    + rewrite lookup_insert_eq. intros [= <-]. apply NoDup_singleton.
    + rewrite lookup_insert_ne by done. apply Hd.
Qed.

Lemma nodup_unregister_dict c t d : nodup_lists d -> nodup_lists (unregister_dict c t d).
Proof.
  intros Hd t' subs. unfold unregister_dict.
  destruct (d !! t) as [l0|] eqn:Ht; [|apply Hd].
  destruct (decide (c ∈ l0)); [|apply Hd]. cbn zeta.
  destruct (length (remove_first c l0) =? 0)%nat.
  - destruct (decide (t = t')) as [<-|Hne].
    + by rewrite lookup_delete_eq.
    + rewrite lookup_delete_ne by done. apply Hd.
  - destruct (decide (t = t')) as [<-|Hne].
    + rewrite lookup_insert_eq. intros [= <-]. apply remove_first_NoDup. by eapply Hd.
    + rewrite lookup_insert_ne by done. apply Hd.
Qed.

Lemma nodup_unregister_fold c ts d :
  nodup_lists d -> nodup_lists (fold_left (fun d t => unregister_dict c t d) ts d).
Proof.
  revert d. induction ts as [|t ts IH]; simpl; intros d Hd; [done|].
  by apply IH, nodup_unregister_dict.
Qed.

Lemma bus_inv_init mq ec safe : bus_inv (__init__ mq ec safe).
Proof.
  split.
  - exists 0%nat, ∅, 2%nat. split; [|intros t subs; by rewrite lookup_empty].
    split; done.
  - done.
Qed.

Lemma bus_inv_transfer b b' :
  same_static b b' -> same_held b b' -> same_registry b b' -> bus_inv b -> bus_inv b'.
Proof.
  intros (Hsafe & Ht & Hcl & _ & Hil & _) Hh (Hd & _ & Hsl & _) [(r & d & l & [] & Hnd) Hg].
  split.
  - exists r, d, l. split; [|done]. split; congruence.
  - rewrite Hsafe, Hsl. exact Hg.
Qed.

Lemma register_effect_inv b r d l c t :
  quiescent b r d l -> nodup_lists d ->
  (subscribers_thread_safe b = true -> subscriber_locks b = ∅) ->
  quiescent (register_effect r d c t b) r (register_dict c t d) l
  /\ bus_inv (register_effect r d c t b).
Proof.
  intros [Hh Ht Hd Hl Hne] Hnd Hg.
  assert (quiescent (register_effect r d c t b) r (register_dict c t d) l) as Hq.
  { unfold register_effect, register_locks.
    destruct (_ && _); (split; simpl; [done..| apply lookup_insert_eq | done | done]). }
  split; [done|]. split.
  - exists r, (register_dict c t d), l. split; [done | by apply nodup_register_dict].
  - unfold register_effect, register_locks.
    change (subscribers_thread_safe
              (set_consumers (register_topics c t)
                 (set_dict_store (insert r (register_dict c t d)) b)))
      with (subscribers_thread_safe b).
    destruct (subscribers_thread_safe b) eqn:Hs.
    + cbn [negb andb]. cbn [set_consumers set_dict_store subscriber_locks
                            subscribers_thread_safe]. by rewrite Hs.
    + destruct (negb false && _);
        cbn [set_consumers set_dict_store set_subscriber_locks set_next_lock
             subscriber_locks subscribers_thread_safe]; by rewrite Hs.
Qed.

Lemma bus_inv_register_consumer b c t :
  bus_inv b -> exists v b', register_consumer c t b = Return v b' /\ bus_inv b'.
Proof.
  intros Hb. destruct (isinstance_Subscriber c) eqn:Hc.
  - destruct Hb as [(r & d & l & Hq & Hnd) Hg].
    exists None, (register_effect r d c t b). split.
    + by eapply register_consumer_eval.
    + by eapply register_effect_inv.
  - exists (Some false), b. split; [|done].
    unfold register_consumer. by rewrite Hc.
Qed.

Lemma bus_inv_register_consumer_topics b c ts :
  bus_inv b -> exists b', register_consumer_topics c ts b = Return tt b' /\ bus_inv b'.
Proof.
  revert b. induction ts as [|t ts IH]; intros b Hb.
  - by exists b.
  - destruct (bus_inv_register_consumer b c t Hb) as (v & b1 & Hr & Hb1).
    destruct (IH b1 Hb1) as (b2 & Hts & Hb2).
    exists b2. split; [|done].
    unfold register_consumer_topics in *. cbn [for_each]. unfold bind. rewrite Hr.
    unfold ret at 1. exact Hts.
Qed.

Lemma unregister_locks_inv c b :
  (subscribers_thread_safe b = true -> subscriber_locks b = ∅) ->
  unregister_locks c b = b.
Proof.
  intros Hg. unfold unregister_locks.
  destruct (subscribers_thread_safe b); [|done].
  rewrite Hg by done. rewrite lookup_empty.
  rewrite bool_decide_eq_false_2; [done|]. by intros [x Hx].
Qed.

Lemma unregister_effect_inv b r d l c ts :
  quiescent b r d l -> nodup_lists d ->
  (subscribers_thread_safe b = true -> subscriber_locks b = ∅) ->
  quiescent (unregister_effect r d c ts b) r
    (fold_left (fun d t => unregister_dict c t d) ts d) l
  /\ bus_inv (unregister_effect r d c ts b).
Proof.
  intros [Hh Ht Hd Hl Hne] Hnd Hg.
  unfold unregister_effect. rewrite unregister_locks_inv by done.
  assert (quiescent
    (set_dict_store (insert r (fold_left (fun d t => unregister_dict c t d) ts d))
       (set_consumers (delete c) b)) r
    (fold_left (fun d t => unregister_dict c t d) ts d) l) as Hq.
  { split; simpl; [done..| apply lookup_insert_eq | done | done]. }
  split; [done|]. split.
  - eexists r, _, l. split; [exact Hq | by apply nodup_unregister_fold].
  - exact Hg.
Qed.

Lemma bus_inv_unregister_consumer b c :
  bus_inv b -> exists b', final (unregister_consumer c b) = Some b' /\ bus_inv b'.
Proof.
  intros Hb. pose proof Hb as [(r & d & l & Hq & Hnd) Hg].
  rewrite (unregister_consumer_eval b r d l c Hq).
  destruct (consumers b !! c) as [ts|].
  - eexists. split; [done|]. by eapply unregister_effect_inv.
  - eexists. split; [done|]. by rewrite unregister_locks_inv.
Qed.

Lemma bus_inv_run c b b' : bus_inv b -> run c b = Some b' -> bus_inv b'.
Proof.
  intros Hb Hrun.
  destruct c as [o | co t | co ts | co | co t | now | name now];
    try (apply (bus_inv_transfer b b');
         [ eapply run_same_static; exact Hrun
         | eapply run_same_held; exact Hrun
         | eapply run_same_registry; [|exact Hrun]; exact I
         | exact Hb ]).
  - simpl in Hrun. destruct (bus_inv_register_consumer b co t Hb) as (v & b1 & Hr & Hb1).
    rewrite Hr in Hrun. simpl in Hrun. by simplify_eq.
  - simpl in Hrun.
    destruct (bus_inv_register_consumer_topics b co ts Hb) as (b1 & Hr & Hb1).
    rewrite Hr in Hrun. simpl in Hrun. by simplify_eq.
  - simpl in Hrun. destruct (bus_inv_unregister_consumer b co Hb) as (b1 & Hr & Hb1).
    rewrite Hr in Hrun. by simplify_eq.
Qed.

Lemma reachable_inv b : reachable b -> bus_inv b.
Proof.
  intros (mq & ec & safe & Hsteps).
  revert b Hsteps. apply rtc_ind_r; [apply bus_inv_init|].
  intros b1 b2 _ [c Hc] IH. by eapply bus_inv_run.
Qed.

(** ** Unregistering *)

(** C1. On a consumer that is not a key of [consumers] (never registered,
    or unregistered before), [unregister_consumer] does not return: the
    loop iterates over [None] and the call raises [TypeError]. The state
    of the bus is as before the call. *)
Theorem unregister_unknown_raises (b : bus) (c : object) :
  reachable b -> consumers b !! c = None ->
  unregister_consumer c b = Raise TypeError b.
Proof.
  intros Hb Hc. apply reachable_inv in Hb as [(r & d & l & Hq & _) Hg].
  rewrite (unregister_consumer_eval b r d l c Hq), Hc.
  by rewrite unregister_locks_inv.
Qed.

Lemma unregister_unknown_raises_witness :
  unregister_consumer (SubscriberObj 1) (__init__ 10000 8 true)
  = Raise TypeError (__init__ 10000 8 true).
Proof.
  apply (unregister_unknown_raises (__init__ 10000 8 true) (SubscriberObj 1)).
  - apply reachable_init.
  - reflexivity.
Defined.

(** After a registration and an unregistration, a second
    [unregister_consumer] of the consumer raises as well. *)
Example unregister_twice_raises :
  let b1 := after [CallRegisterConsumer (SubscriberObj 1) "topic"] (__init__ 10000 2 true) in
  let b2 := after [CallUnregisterConsumer (SubscriberObj 1)] b1 in
  register_consumer (SubscriberObj 1) "topic" (__init__ 10000 2 true) = Return None b1
  /\ unregister_consumer (SubscriberObj 1) b1 = Return tt b2
  /\ unregister_consumer (SubscriberObj 1) b2 = Raise TypeError b2.
Proof. split_and!; vm_compute; reflexivity. Qed.

(** C6. When subscribers are not thread safe, [unregister_consumer] leaves
    the lock of the consumer in [subscriber_locks]: the deletion is guarded
    by [subscribers_thread_safe], and locks exist only when it is false. *)
Theorem unregister_keeps_guard (b : bus) (c : object) (lk : nat) :
  reachable b -> subscribers_thread_safe b = false ->
  subscriber_locks b !! c = Some lk ->
  exists b', final (unregister_consumer c b) = Some b'
    /\ subscriber_locks b' !! c = Some lk.
Proof.
  intros Hb Hs Hlk. apply reachable_inv in Hb as [(r & d & l & Hq & _) _].
  rewrite (unregister_consumer_eval b r d l c Hq).
  assert (unregister_locks c b = b) as Hul.
  { unfold unregister_locks. by rewrite Hs. }
  destruct (consumers b !! c) as [ts|].
  - eexists. split; [done|]. unfold unregister_effect.
    assert (unregister_locks c (set_consumers (delete c) b) = set_consumers (delete c) b)
      as ->.
    { unfold unregister_locks.
      change (subscribers_thread_safe (set_consumers (delete c) b))
        with (subscribers_thread_safe b). by rewrite Hs. }
    exact Hlk.
  - eexists. split; [done|]. by rewrite Hul.
Qed.

Lemma unregister_keeps_guard_witness :
  let b1 := after [CallRegisterConsumer (SubscriberObj 1) "topic"] (__init__ 10000 2 false) in
  exists b2, final (unregister_consumer (SubscriberObj 1) b1) = Some b2
    /\ subscriber_locks b2 !! SubscriberObj 1 = Some 3%nat.
Proof.
  intros b1. apply unregister_keeps_guard.
  - apply reachable_after; [apply reachable_init | vm_compute; reflexivity].
  - vm_compute; reflexivity.
  - vm_compute; reflexivity.
Defined.

(** With thread-safe subscribers there is no lock to remove. *)
Lemma no_guard_when_thread_safe (b : bus) (c : object) :
  reachable b -> subscribers_thread_safe b = true -> subscriber_locks b !! c = None.
Proof.
  intros Hb Hs. apply reachable_inv in Hb as [_ Hg]. by rewrite Hg.
Qed.

(** ** Registering, then unregistering *)

Lemma register_dict_lookup c t d :
  exists subs, register_dict c t d !! t = Some subs /\ c ∈ subs.
Proof.
  unfold register_dict. destruct (d !! t) as [l0|] eqn:Ht.
  - destruct (decide (c ∈ l0)); [by exists l0|].
    exists (l0 ++ [c]). rewrite lookup_insert_eq. split; [done|].
    apply elem_of_app. right. apply list_elem_of_singleton. done.
  - exists [c]. rewrite lookup_insert_eq. split; [done|].
    by apply list_elem_of_singleton.
Qed.

Lemma register_topics_lookup c t m :
  exists ts, register_topics c t m !! c = Some ts /\ t ∈ ts.
Proof.
  unfold register_topics. destruct (m !! c) as [ts0|] eqn:Hc.
  - destruct (decide (t ∈ ts0)); [by exists ts0|].
    exists (ts0 ++ [t]). rewrite lookup_insert_eq. split; [done|].
    apply elem_of_app. right. by apply list_elem_of_singleton.
  - exists [t]. rewrite lookup_insert_eq. split; [done|].
    by apply list_elem_of_singleton.
Qed.

Lemma consumers_register_effect r d c t b :
  consumers (register_effect r d c t b) = register_topics c t (consumers b).
Proof. unfold register_effect, register_locks. by destruct (_ && _). Qed.

Lemma unregister_dict_absent c t d :
  nodup_lists d -> absent_at c t (unregister_dict c t d).
Proof.
  intros Hnd subs. unfold unregister_dict.
  destruct (d !! t) as [l0|] eqn:Ht; [|by rewrite Ht].
  destruct (decide (c ∈ l0)) as [Hin|Hin]; [|rewrite Ht; by intros [= <-]].
  cbn zeta. destruct (length (remove_first c l0) =? 0)%nat.
  - by rewrite lookup_delete_eq.
  - rewrite lookup_insert_eq. intros [= <-]. apply remove_first_not_elem. by eapply Hnd.
Qed.

Lemma unregister_dict_other c t t' d :
  t <> t' -> unregister_dict c t' d !! t = d !! t.
Proof.
  intros Hne. unfold unregister_dict.
  destruct (d !! t') as [l0|]; [|done].
  destruct (decide (c ∈ l0)); [|done]. cbn zeta.
  destruct (length (remove_first c l0) =? 0)%nat.
  - by rewrite lookup_delete_ne.
  - by rewrite lookup_insert_ne.
Qed.

Lemma unregister_fold_absent c t ts : forall d,
  nodup_lists d -> t ∈ ts \/ absent_at c t d ->
  absent_at c t (fold_left (fun d t => unregister_dict c t d) ts d).
Proof.
  induction ts as [|t0 ts IH]; intros d Hnd Hcase; simpl.
  - destruct Hcase as [Hin|Habs]; [|done]. by apply elem_of_nil in Hin.
  - apply IH; [by apply nodup_unregister_dict|].
    destruct (decide (t = t0)) as [<-|Hne].
    + right. by apply unregister_dict_absent.
    + destruct Hcase as [Hin|Habs].
      * left. apply elem_of_cons in Hin as [?|?]; done.
      * right. intros subs. rewrite unregister_dict_other by done. apply Habs.
Qed.

(** C8. From any reachable state, [register_consumer(c, t)] followed by
    [unregister_consumer(c)] both return, and [is_subscribed(c, t)] then
    returns [False]. *)
Theorem register_unregister_not_subscribed (b : bus) (c : object) (t : string) :
  reachable b -> isinstance_Subscriber c = true ->
  exists b1 b2,
    register_consumer c t b = Return None b1
    /\ unregister_consumer c b1 = Return tt b2
    /\ is_subscribed c t b2 = Return false b2.
Proof.
  intros Hb Hc. apply reachable_inv in Hb as [(r & d & l & Hq & Hnd) Hg].
  destruct (register_effect_inv b r d l c t Hq Hnd Hg) as [Hq1 [_ Hg1]].
  destruct (register_topics_lookup c t (consumers b)) as (ts & Hts & Hin).
  pose proof (nodup_register_dict c t d Hnd) as Hnd1.
  destruct (unregister_effect_inv _ r _ l c ts Hq1 Hnd1 Hg1) as [Hq2 _].
  exists (register_effect r d c t b),
         (unregister_effect r (register_dict c t d) c ts (register_effect r d c t b)).
  split_and!.
  - by apply (register_consumer_eval b r d l).
  - rewrite (unregister_consumer_eval _ r _ l c Hq1).
    by rewrite consumers_register_effect, Hts.
  - rewrite (is_subscribed_eval _ r _ l c t Hq2 Hc). f_equal.
    pose proof (unregister_fold_absent c t ts (register_dict c t d) Hnd1 (or_introl Hin))
      as Habs.
    destruct (fold_left _ ts (register_dict c t d) !! t) as [subs|] eqn:Hl; [|done].
    apply bool_decide_eq_false_2. by apply Habs.
Qed.

Lemma register_unregister_not_subscribed_witness :
  exists b1 b2,
    register_consumer (SubscriberObj 7) "topic" (__init__ 10000 4 false) = Return None b1
    /\ unregister_consumer (SubscriberObj 7) b1 = Return tt b2
    /\ is_subscribed (SubscriberObj 7) "topic" b2 = Return false b2.
Proof.
  apply register_unregister_not_subscribed; [apply reachable_init | reflexivity].
Defined.

(** ** One dictionary and one lock behind the sixteen shards *)

(** C10. In every reachable state the entries of [topics] are one reference
    and the entries of [index_locks] are one lock, so every shard index
    reads the same dictionary; a topic registered through its own index is
    then visible through every index. *)
Theorem shards_alias (b : bus) :
  reachable b ->
  exists r l d,
    topics b = replicate (Z.to_nat MAX_TOPIC_INDEX) r
    /\ index_locks b = replicate (Z.to_nat MAX_TOPIC_INDEX) l
    /\ (forall i, 0 <= i < MAX_TOPIC_INDEX -> shard i b = Return (r, d) b)
    /\ (forall c t, isinstance_Subscriber c = true ->
          exists b', register_consumer c t b = Return None b'
            /\ reachable b'
            /\ forall j, 0 <= j < MAX_TOPIC_INDEX ->
                 exists d' subs, shard j b' = Return (r, d') b'
                   /\ d' !! t = Some subs /\ c ∈ subs).
Proof.
  intros Hb. pose proof (reachable_inv b Hb) as [(r & d & l & Hq & Hnd) Hg].
  pose proof Hq as [Hh Ht Hd Hl Hne].
  exists r, l, d. split_and!; [done | done | |].
  - intros i Hi. by apply shard_eval.
  - intros c t Hc.
    destruct (register_effect_inv b r d l c t Hq Hnd Hg) as [[Hh1 Ht1 Hd1 Hl1 Hne1] _].
    pose proof (register_consumer_eval b r d l c t Hq Hc) as Hreg.
    exists (register_effect r d c t b). split_and!; [done | |].
    + apply (reachable_run (CallRegisterConsumer c t) b); [done|].
      simpl. by rewrite Hreg.
    + intros j Hj. destruct (register_dict_lookup c t d) as (subs & Hsubs & Hin).
      exists (register_dict c t d), subs. split_and!; [|done..].
      by apply shard_eval.
Qed.

Lemma shards_alias_witness :
  exists r l d,
    topics (__init__ 10000 8 true) = replicate (Z.to_nat MAX_TOPIC_INDEX) r
    /\ index_locks (__init__ 10000 8 true) = replicate (Z.to_nat MAX_TOPIC_INDEX) l
    /\ (forall i, 0 <= i < MAX_TOPIC_INDEX ->
          shard i (__init__ 10000 8 true) = Return (r, d) (__init__ 10000 8 true))
    /\ (forall c t, isinstance_Subscriber c = true ->
          exists b', register_consumer c t (__init__ 10000 8 true) = Return None b'
            /\ reachable b'
            /\ forall j, 0 <= j < MAX_TOPIC_INDEX ->
                 exists d' subs, shard j b' = Return (r, d') b'
                   /\ d' !! t = Some subs /\ c ∈ subs).
Proof. apply shards_alias, reachable_init. Defined.

(** ** The end of the executor loop *)

Lemma Qlt_bool_iff (x y : Q) : Qlt_bool x y = true <-> (x < y)%Q.
Proof.
  unfold Qlt_bool. rewrite negb_true_iff. split.
  - intros H. apply Qnot_le_lt. intros Hle. apply Qle_bool_iff in Hle. congruence.
  - intros H. destruct (Qle_bool y x) eqn:Hle; [|done].
    apply Qle_bool_iff in Hle. by apply Qlt_not_le in H.
Qed.

(** [_thread_should_end] holds exactly when a deadline is set and the
    clock is still before it. *)
Lemma _thread_should_end_iff (now : Q) (b : bus) :
  _thread_should_end now b = true <-> (0 < stop_time b)%Q /\ (now < stop_time b)%Q.
Proof.
  unfold _thread_should_end. rewrite andb_true_iff. by rewrite !Qlt_bool_iff.
Qed.

(** C2. After the first [shutdown], at time [t0], [_thread_should_end] is
    true before the deadline [t0 + 2] and false from the deadline on: the
    executors leave their loop at once, and one that is still running when
    the deadline passes does not stop. *)
Theorem thread_should_end_inverted (b : bus) (t0 now : Q) :
  reachable b -> keep_running b = true -> (0 < t0 + 2)%Q ->
  exists b', shutdown t0 b = Return (executors b) b'
    /\ stop_time b' = (t0 + 2)%Q
    /\ ((now < t0 + 2)%Q -> _thread_should_end now b' = true)
    /\ ((t0 + 2 <= now)%Q -> _thread_should_end now b' = false).
Proof.
  intros Hb Hk Hpos. eexists. split; [by apply shutdown_first|].
  split; [done|]. split.
  - intros Hnow. by apply _thread_should_end_iff.
  - intros Hnow. apply not_true_is_false. intros H.
    apply _thread_should_end_iff in H as [_ Hlt].
    simpl in Hlt. by apply Qlt_not_le in Hlt.
Qed.

Lemma thread_should_end_inverted_witness :
  exists b', shutdown 100 (__init__ 10000 8 true)
             = Return (executors (__init__ 10000 8 true)) b'
    /\ stop_time b' = (100 + 2)%Q
    /\ ((101 < 100 + 2)%Q -> _thread_should_end 101 b' = true)
    /\ ((100 + 2 <= 101)%Q -> _thread_should_end 101 b' = false).
Proof.
  apply thread_should_end_inverted; [apply reachable_init | reflexivity | reflexivity].
Defined.

(** While no deadline is set the predicate is false. *)
Lemma _thread_should_end_unset (now : Q) (b : bus) :
  stop_time b = 0%Q -> _thread_should_end now b = false.
Proof. intros H. unfold _thread_should_end. by rewrite H. Qed.

Example thread_should_end_values :
  let b := after [CallShutdown 100] (__init__ 10000 8 true) in
  stop_time b = (100 + 2)%Q
  /\ _thread_should_end 101 b = true
  /\ _thread_should_end 103 b = false.
Proof. split_and!; vm_compute; reflexivity. Qed.

(** ** The number of executors *)

Lemma init_executors (mq ec : Z) (safe : bool) :
  let b := __init__ mq ec safe in
  executor_count b = Z.min ec MAX_EXECUTOR_COUNT
  /\ length (executors b) = Z.to_nat (Z.min ec MAX_EXECUTOR_COUNT)
  /\ length (grouped_events b) = Z.to_nat (Z.min ec MAX_EXECUTOR_COUNT).
Proof. simpl. by rewrite !length_map, !length_seq. Qed.

(** The upper bound holds for every argument. *)
Lemma init_executors_at_most (mq ec : Z) (safe : bool) :
  Z.of_nat (length (executors (__init__ mq ec safe))) <= MAX_EXECUTOR_COUNT.
Proof.
  destruct (init_executors mq ec safe) as (_ & -> & _).
  unfold MAX_EXECUTOR_COUNT. lia.
Qed.

(** C5. The constructor takes the minimum of [executor_count] and
    [MAX_EXECUTOR_COUNT] and never uses [MIN_EXECUTOR_COUNT]: for an
    argument that is zero or negative it creates no executor and no
    queue of grouped events. *)
Theorem executor_count_not_raised_to_min :
  let b0 := __init__ 10000 0 true in
  let b3 := __init__ 10000 (-3) true in
  executor_count b0 = 0 /\ executors b0 = [] /\ grouped_events b0 = []
  /\ executor_count b3 = -3 /\ executors b3 = [] /\ grouped_events b3 = [].
Proof. by split_and!. Qed.

Lemma init_executors_none (mq ec : Z) (safe : bool) :
  ec <= 0 -> executors (__init__ mq ec safe) = [] /\ grouped_events (__init__ mq ec safe) = [].
Proof.
  intros Hec. simpl.
  replace (Z.to_nat (Z.min ec MAX_EXECUTOR_COUNT)) with 0%nat; [done|].
  unfold MAX_EXECUTOR_COUNT. lia.
Qed.

(** ** Routing *)

Lemma _choose_queue_state (ev : event) (b : bus) :
  match _choose_queue ev b with
  | Return _ b' => b' = b
  | Raise _ b' => b' = b
  | Blocked _ => False
  end.
Proof.
  unfold _choose_queue. destruct (get_ordered ev); unfold bind, get; [|done].
  destruct (executor_count b =? 0); [done|].
  unfold list_getitem. by destruct (py_index _ _).
Qed.

Lemma _choose_queue_unordered (ev : event) (b : bus) :
  get_ordered ev = None -> _choose_queue ev b = Return (event_queue b) b.
Proof. intros H. unfold _choose_queue. by rewrite H. Qed.

Lemma lane_index_range (key : string) (count : Z) :
  1 <= count -> 0 <= lane_index key count < count.
Proof. intros H. unfold lane_index. apply Z.mod_pos_bound. lia. Qed.

Lemma py_index_lanes (n : nat) (i : Z) :
  0 <= i < Z.of_nat n -> py_index (map S (seq 0 n)) i = Some (S (Z.to_nat i)).
Proof.
  intros Hi. unfold py_index. destruct (Z.leb_spec 0 i) as [_|?]; [|lia].
  rewrite list_lookup_fmap, lookup_seq_lt by lia. done.
Qed.

(** On a bus constructed with at least one executor, an event with an
    ordering key goes to the lane [lane_index key executor_count], in every
    state the bus reaches: the index depends on the key and on the count
    only, and no method assigns [executor_count] or [grouped_events]. *)
Lemma _choose_queue_ordered (mq ec : Z) (safe : bool) (b : bus) (ev : event) (key : string) :
  rtc step (__init__ mq ec safe) b -> 1 <= ec -> get_ordered ev = Some key ->
  let indx := lane_index key (executor_count b) in
  executor_count b = Z.min ec MAX_EXECUTOR_COUNT
  /\ 0 <= indx < executor_count b
  /\ Z.of_nat (length (executors b)) = executor_count b
  /\ grouped_events b !! Z.to_nat indx = Some (S (Z.to_nat indx))
  /\ _choose_queue ev b = Return (S (Z.to_nat indx)) b
  /\ S (Z.to_nat indx) <> event_queue b.
Proof.
  intros Hsteps Hec Hkey indx.
  apply reachable_static in Hsteps
    as (_ & _ & _ & _ & _ & Heq & Hcount & Hex & Hlanes & _).
  simpl in Hcount, Hlanes, Heq, Hex.
  assert (1 <= executor_count b) as Hpos.
  { rewrite Hcount. unfold MAX_EXECUTOR_COUNT. lia. }
  pose proof (lane_index_range key (executor_count b) Hpos) as Hrange.
  fold indx in Hrange.
  assert (py_index (grouped_events b) indx = Some (S (Z.to_nat indx))) as Hidx.
  { rewrite Hlanes. apply py_index_lanes. rewrite <- Hcount. lia. }
  split_and!; [done | lia | lia | | | | ].
  - rewrite Hex, length_map, length_seq, <- Hcount. lia.
  - unfold py_index in Hidx. by destruct (Z.leb_spec 0 indx); [|lia].
  - unfold _choose_queue. rewrite Hkey. unfold bind, get.
    destruct (Z.eqb_spec (executor_count b) 0) as [?|_]; [lia|].
    fold (lane_index key (executor_count b)). fold indx.
    unfold list_getitem. by rewrite Hidx.
  - by rewrite Heq.
Qed.

(** C3. On a bus constructed with [executor_count = 0] the modulo of
    [_choose_queue] divides by zero, and with a negative [executor_count]
    the index falls outside the empty [grouped_events]: an event with an
    ordering key is routed to no lane, and [post] raises. *)
Theorem choose_queue_without_executors :
  let ev := Event 1 "topic" "event_mine" (Some "ord"%string) in
  let b0 := __init__ 10000 0 true in
  let b3 := __init__ 10000 (-3) true in
  _choose_queue ev b0 = Raise ZeroDivisionError b0
  /\ post (EventObj ev) b0 = Raise ZeroDivisionError b0
  /\ _choose_queue ev b3 = Raise IndexError b3
  /\ post (EventObj ev) b3 = Raise IndexError b3.
Proof. split_and!; vm_compute; reflexivity. Qed.

Example _choose_queue_ord :
  let ev := Event 1 "topic" "event_mine" (Some "ord"%string) in
  get_crc32 "ord" = 3944540986
  /\ lane_index "ord" 4 = 2
  /\ _choose_queue ev (__init__ 10000 4 true) = Return 3%nat (__init__ 10000 4 true).
Proof. split_and!; vm_compute; reflexivity. Qed.

(** ** Posting *)

(** [post] of an [Event] on a running bus. *)
Lemma post_valid (o : object) (b : bus) (ev : event) :
  isinstance_Event o = Some ev -> keep_running b = true ->
  post o b = match _choose_queue ev b with
             | Return r _ =>
                 match queue_store b !! r with
                 | Some q => if queue_full q then Blocked b
                             else Return true (enqueued r q ev b)
                 | None => Raise KeyError b
                 end
             | Raise e _ => Raise e b
             | Blocked _ => Blocked b
             end.
Proof.
  intros Hev Hk. unfold post. rewrite Hev. unfold bind at 1. unfold get at 1.
  rewrite Hk. cbn [negb]. unfold bind at 1.
  pose proof (_choose_queue_state ev b) as Hst.
  destruct (_choose_queue ev b) as [r b1 | e b1 | b1]; [subst b1 | by subst b1 | done].
  unfold bind, queue_put.
  destruct (queue_store b !! r) as [q|]; [|done]. by destruct (queue_full q).
Qed.

Lemma post_invalid (o : object) (b : bus) :
  isinstance_Event o = None \/ keep_running b = false -> post o b = Return false b.
Proof.
  intros [Ho | Hk]; unfold post.
  - by rewrite Ho.
  - destruct (isinstance_Event o); [|done]. unfold bind, get. by rewrite Hk.
Qed.

(** The results of [post]. It returns [False], without raising and without
    touching the bus, for an object that is not an [Event] and for any
    object once [keep_running] is false; it returns [False] in these cases
    only; and when it returns [True] the event is an [Event], the bus is
    running and the event is at the tail of the queue [_choose_queue]
    selected, which is what happens whenever that queue exists and is not
    full. *)
Lemma post_returns_bool (o : object) (b : bus) :
  (isinstance_Event o = None \/ keep_running b = false -> post o b = Return false b)
  /\ (forall v b', post o b = Return v b' ->
        (v = false <-> isinstance_Event o = None \/ keep_running b = false))
  /\ (forall b', post o b = Return true b' ->
        exists ev r q,
          isinstance_Event o = Some ev /\ keep_running b = true
          /\ _choose_queue ev b = Return r b
          /\ queue_store b !! r = Some q /\ queue_full q = false
          /\ b' = enqueued r q ev b)
  /\ (forall ev r q,
        isinstance_Event o = Some ev -> keep_running b = true ->
        _choose_queue ev b = Return r b ->
        queue_store b !! r = Some q -> queue_full q = false ->
        post o b = Return true (enqueued r q ev b)).
Proof.
  split_and!.
  - apply post_invalid.
  - intros v b' Hpost.
    destruct (isinstance_Event o) as [ev|] eqn:Hev.
    + destruct (keep_running b) eqn:Hk.
      * rewrite (post_valid o b ev Hev Hk) in Hpost.
        destruct (_choose_queue ev b) as [r b1 | e b1 | b1]; [|done..].
        destruct (queue_store b !! r) as [q|]; [|done].
        destruct (queue_full q); [done|]. injection Hpost as <- _.
        split; [intros [=] | intros [[=]|[=]]].
      * rewrite post_invalid in Hpost by (by right). injection Hpost as <- _.
        split; [by right | done].
    + rewrite post_invalid in Hpost by (by left). injection Hpost as <- _.
      split; [by left | done].
  - intros b' Hpost.
    destruct (isinstance_Event o) as [ev|] eqn:Hev;
      [|by rewrite post_invalid in Hpost by (by left)].
    destruct (keep_running b) eqn:Hk;
      [|by rewrite post_invalid in Hpost by (by right)].
    rewrite (post_valid o b ev Hev Hk) in Hpost.
    pose proof (_choose_queue_state ev b) as Hst.
    destruct (_choose_queue ev b) as [r b1 | e b1 | b1] eqn:Hch; [subst b1|done..].
    destruct (queue_store b !! r) as [q|] eqn:Hq; [|done].
    destruct (queue_full q) eqn:Hfull; [done|]. injection Hpost as <-.
    by exists ev, r, q.
  - intros ev r q Hev Hk Hch Hq Hfull.
    rewrite (post_valid o b ev Hev Hk), Hch, Hq, Hfull. done.
Qed.

Example post_values :
  let ev := Event 1 "topic" "event_mine" None in
  let b := __init__ 10000 8 true in
  let stopped := after [CallShutdown 100] b in
  post (OtherObj 5) b = Return false b
  /\ post (SubscriberObj 5) b = Return false b
  /\ post (EventObj ev) stopped = Return false stopped
  /\ post (EventObj ev) b = Return true (enqueued 0 (mkQueue 10000 []) ev b).
Proof. split_and!; vm_compute; reflexivity. Qed.

(** C7. [post] does not return a boolean for every input. On a bus
    constructed with an [executor_count] that is zero or negative, which
    [__init__] accepts as it is, [post] of an event with an ordering key
    raises in every state the bus reaches while it runs:
    [ZeroDivisionError] from the modulo of [_choose_queue] when the count is
    zero, [IndexError] from the empty [grouped_events] when it is negative.
    Nothing is queued. *)
Theorem post_raises_without_executors
    (mq ec : Z) (safe : bool) (b : bus) (ev : event) (key : string) :
  rtc step (__init__ mq ec safe) b -> ec <= 0 ->
  keep_running b = true -> get_ordered ev = Some key ->
  isinstance_Event (EventObj ev) = Some ev
  /\ post (EventObj ev) b
     = Raise (if ec =? 0 then ZeroDivisionError else IndexError) b.
Proof.
  intros Hsteps Hec Hk Hkey. split; [done|].
  apply reachable_static in Hsteps
    as (_ & _ & _ & _ & _ & _ & Hcount & _ & Hlanes & _).
  simpl in Hcount, Hlanes.
  assert (Z.min ec MAX_EXECUTOR_COUNT = ec) as Hmin
    by (unfold MAX_EXECUTOR_COUNT; lia).
  rewrite Hmin in Hcount, Hlanes.
  replace (Z.to_nat ec) with 0%nat in Hlanes by lia. simpl in Hlanes.
  rewrite (post_valid (EventObj ev) b ev eq_refl Hk).
  unfold _choose_queue. rewrite Hkey. unfold bind, get. rewrite Hcount.
  destruct (Z.eqb_spec ec 0) as [->|Hne]; [done|].
  rewrite Hlanes. unfold list_getitem, py_index. cbn [length Z.of_nat].
  set (indx := _ mod ec). rewrite Z.add_0_l.
  destruct (0 <=? indx); [|done]. by rewrite lookup_nil.
Qed.

Lemma post_raises_without_executors_witness :
  let ev := Event 7 "topic" "event_mine" (Some "ord"%string) in
  let b := after [CallRegisterConsumer (SubscriberObj 1) "topic"]
             (__init__ 10000 (-3) false) in
  isinstance_Event (EventObj ev) = Some ev
  /\ post (EventObj ev) b = Raise IndexError b.
Proof.
  intros ev b.
  apply (post_raises_without_executors 10000 (-3) false b ev "ord").
  - apply rtc_once. exists (CallRegisterConsumer (SubscriberObj 1) "topic").
    vm_compute; reflexivity.
  - lia.
  - vm_compute; reflexivity.
  - reflexivity.
Defined.

(** ** Capacity of the queues *)

Lemma init_queue_store_fold (l : list nat) (m : gmap nat Queue) (k : nat) (q : Queue) :
  m !! k = Some q \/ (q = mkQueue 0 [] /\ exists i, i ∈ l /\ k = S i) ->
  (forall i, i ∈ l -> k = S i -> q = mkQueue 0 []) ->
  fold_left (fun m i => <[S i := mkQueue 0 []]> m) l m !! k = Some q.
Proof.
  revert m. induction l as [|a l IH]; intros m Hcase Hov; simpl.
  - destruct Hcase as [?|(_ & i & Hi & _)]; [done|]. by apply elem_of_nil in Hi.
  - apply IH.
    + destruct (decide (k = S a)) as [->|Hne].
      * left. rewrite lookup_insert_eq. f_equal. symmetry.
        apply (Hov a); [apply elem_of_cons; by left | done].
      * destruct Hcase as [Hm|(-> & i & Hi & ->)].
        -- left. by rewrite lookup_insert_ne.
        -- right. split; [done|]. exists i. split; [|done].
           apply elem_of_cons in Hi as [->|Hi]; done.
    + intros i Hi. apply Hov. apply elem_of_cons. by right.
Qed.

Lemma init_shared_queue (mq ec : Z) (safe : bool) :
  let b := __init__ mq ec safe in
  queue_store b !! event_queue b = Some (mkQueue mq []).
Proof.
  simpl. apply init_queue_store_fold.
  - left. apply lookup_singleton_eq.
  - intros i _ [=].
Qed.

Lemma init_lane_queue (mq ec : Z) (safe : bool) (r : nat) :
  let b := __init__ mq ec safe in
  r ∈ grouped_events b -> queue_store b !! r = Some (mkQueue 0 []).
Proof.
  simpl. intros Hr. apply list_elem_of_fmap in Hr as (i & -> & Hi).
  apply init_queue_store_fold; [|done].
  right. split; [done|]. by exists i.
Qed.

(** The queues of a bus in the states it reaches. *)
Lemma reached_shared_queue (mq ec : Z) (safe : bool) (b : bus) :
  rtc step (__init__ mq ec safe) b ->
  exists q, queue_store b !! event_queue b = Some q
    /\ maxsize q = mq /\ within_capacity q.
Proof.
  intros Hsteps.
  pose proof (steps_preserve queues_kept run_queues_kept _ _ Hsteps) as Hkept.
  pose proof (reachable_static _ _ _ _ Hsteps)
    as (_ & _ & _ & _ & _ & Heq & _).
  destruct (Hkept _ _ (init_shared_queue mq ec safe)) as (q & Hq & Hmax & Hcap).
  rewrite <- Heq in Hq. simpl in Hmax. exists q. split_and!; [done..|].
  apply Hcap. unfold within_capacity. simpl. lia.
Qed.

Lemma reached_lane_queue (mq ec : Z) (safe : bool) (b : bus) (r : nat) :
  rtc step (__init__ mq ec safe) b -> r ∈ grouped_events b ->
  exists q, queue_store b !! r = Some q /\ maxsize q = 0 /\ queue_full q = false.
Proof.
  intros Hsteps Hr.
  pose proof (steps_preserve queues_kept run_queues_kept _ _ Hsteps) as Hkept.
  pose proof (reachable_static _ _ _ _ Hsteps)
    as (_ & _ & _ & _ & _ & _ & _ & _ & Hlanes & _).
  rewrite Hlanes in Hr.
  destruct (Hkept _ _ (init_lane_queue mq ec safe r Hr)) as (q & Hq & Hmax & _).
  simpl in Hmax. exists q. split_and!; [done..|].
  unfold queue_full. by rewrite Hmax.
Qed.

(** On a bus constructed with at least one executor, [post] of an event
    never raises while the bus runs: the event goes to the tail of its
    queue, or the call blocks on the full queue. *)
Lemma post_event_running (mq ec : Z) (safe : bool) (b : bus) (ev : event) :
  rtc step (__init__ mq ec safe) b -> 1 <= ec -> keep_running b = true ->
  exists r q,
    _choose_queue ev b = Return r b /\ queue_store b !! r = Some q
    /\ post (EventObj ev) b =
         if queue_full q then Blocked b else Return true (enqueued r q ev b).
Proof.
  intros Hsteps Hec Hk.
  assert (exists r q, _choose_queue ev b = Return r b /\ queue_store b !! r = Some q)
    as (r & q & Hch & Hq).
  { destruct (get_ordered ev) as [key|] eqn:Hord.
    - destruct (_choose_queue_ordered mq ec safe b ev key Hsteps Hec Hord)
        as (_ & _ & _ & Hlane & Hch & _).
      apply list_elem_of_lookup_2 in Hlane.
      destruct (reached_lane_queue mq ec safe b _ Hsteps Hlane) as (q & Hq & _).
      by eexists _, q.
    - destruct (reached_shared_queue mq ec safe b Hsteps) as (q & Hq & _).
      exists (event_queue b), q. split; [by apply _choose_queue_unordered | done]. }
  exists r, q. split_and!; [done..|].
  by rewrite (post_valid (EventObj ev) b ev eq_refl Hk), Hch, Hq.
Qed.

(** C4, as the code has it. In every state a bus reaches, the shared queue
    has the capacity [max_queued_event] it was constructed with and, when
    that is positive, holds at most so many events; [post] of an event
    without ordering key to the full shared queue blocks and enqueues
    nothing. The queue of each executor has capacity zero, which makes it
    unbounded: it is never full. *)
Theorem shared_queue_bounded (mq ec : Z) (safe : bool) (b : bus) :
  rtc step (__init__ mq ec safe) b ->
  (exists q,
      queue_store b !! event_queue b = Some q
      /\ maxsize q = mq
      /\ (0 < mq -> Z.of_nat (length (items q)) <= mq)
      /\ (forall ev, keep_running b = true -> get_ordered ev = None ->
            queue_full q = true -> post (EventObj ev) b = Blocked b))
  /\ (forall r, r ∈ grouped_events b ->
        exists q, queue_store b !! r = Some q /\ maxsize q = 0 /\ queue_full q = false).
Proof.
  intros Hsteps. split.
  - destruct (reached_shared_queue mq ec safe b Hsteps) as (q & Hq & Hmax & Hcap).
    exists q. split_and!; [done..| |].
    + intros Hpos. rewrite <- Hmax. apply Hcap. lia.
    + intros ev Hk Hord Hfull.
      rewrite (post_valid (EventObj ev) b ev eq_refl Hk).
      by rewrite (_choose_queue_unordered ev b Hord), Hq, Hfull.
  - intros r Hr. by eapply reached_lane_queue.
Qed.

Lemma shared_queue_bounded_witness :
  let b := after [CallPost (EventObj (Event 1 "topic" "event_mine" None))]
             (__init__ 1 2 true) in
  (exists q,
      queue_store b !! event_queue b = Some q
      /\ maxsize q = 1
      /\ (0 < 1 -> Z.of_nat (length (items q)) <= 1)
      /\ (forall ev, keep_running b = true -> get_ordered ev = None ->
            queue_full q = true -> post (EventObj ev) b = Blocked b))
  /\ (forall r, r ∈ grouped_events b ->
        exists q, queue_store b !! r = Some q /\ maxsize q = 0 /\ queue_full q = false).
Proof.
  intros b. apply (shared_queue_bounded 1 2 true b).
  apply rtc_once. exists (CallPost (EventObj (Event 1 "topic" "event_mine" None))).
  vm_compute. reflexivity.
Defined.

(** Posts of an event with an ordering key are all accepted: they pile up
    in the queue of one executor and leave the shared queue as it is. *)
Lemma keyed_posts_fill_lane (mq ec : Z) (safe : bool) (ev : event) (key : string) (n : nat) :
  1 <= ec -> get_ordered ev = Some key ->
  forall b shared lane,
    rtc step (__init__ mq ec safe) b -> keep_running b = true ->
    queue_store b !! event_queue b = Some shared ->
    queue_store b !! S (Z.to_nat (lane_index key (Z.min ec MAX_EXECUTOR_COUNT)))
      = Some lane ->
    exists b',
      run_all (replicate n (CallPost (EventObj ev))) b = Some b'
      /\ rtc step (__init__ mq ec safe) b'
      /\ keep_running b' = true
      /\ queue_store b' !! event_queue b' = Some shared
      /\ queue_store b' !! S (Z.to_nat (lane_index key (Z.min ec MAX_EXECUTOR_COUNT)))
         = Some (mkQueue (maxsize lane) (items lane ++ replicate n ev)).
Proof.
  intros Hec Hkey. set (r := S _).
  induction n as [|n IH]; intros b shared lane Hsteps Hk Hshared Hlane.
  - exists b. split_and!; [done..|]. rewrite Hlane, app_nil_r. by destruct lane.
  - destruct (_choose_queue_ordered mq ec safe b ev key Hsteps Hec Hkey)
      as (Hcount & _ & _ & Hin & Hch & Hne).
    rewrite Hcount in Hin, Hch, Hne. fold r in Hin, Hch, Hne.
    apply list_elem_of_lookup_2 in Hin.
    destruct (reached_lane_queue mq ec safe b r Hsteps Hin) as (q & Hq & _ & Hfull).
    rewrite Hlane in Hq. injection Hq as <-.
    assert (post (EventObj ev) b = Return true (enqueued r lane ev b)) as Hpost
      by (by rewrite (post_valid (EventObj ev) b ev eq_refl Hk), Hch, Hlane, Hfull).
    destruct (IH (enqueued r lane ev b) shared
                (mkQueue (maxsize lane) (items lane ++ [ev])))
      as (b' & Hrun & Hsteps' & Hk' & Hshared' & Hlane').
    + eapply rtc_r; [exact Hsteps|]. exists (CallPost (EventObj ev)).
      simpl. by rewrite Hpost.
    + exact Hk.
    + unfold enqueued. cbn [queue_store event_queue set_queue_store].
      by rewrite lookup_insert_ne.
    + unfold enqueued. cbn [queue_store set_queue_store].
      by rewrite lookup_insert_eq.
    + exists b'. split_and!; [|done..|].
      * change (replicate (S n) (CallPost (EventObj ev)))
          with (CallPost (EventObj ev) :: replicate n (CallPost (EventObj ev))).
        cbn [run_all run]. rewrite Hpost. exact Hrun.
      * rewrite Hlane'. cbn [maxsize items]. by rewrite <- app_assoc.
Qed.

(** Against C4 as stated, on buses with one executor. With
    [max_queued_event = 1], two events with an ordering key wait in the
    queue of the executor, which has no capacity bound: more events are
    queued than [max_queued_event]. With [max_queued_event = 0] the shared
    queue itself is unbounded and holds two events. With
    [max_queued_event = 1] and one event in the shared queue, [post] of a
    second event without ordering key is neither rejected nor given up
    after a while: [queue.put] is called without timeout, and the call is
    still blocked after any number of other posts have been accepted. *)
Lemma queued_events_not_bounded :
  let k1 := Event 1 "topic" "event_mine" (Some "ord"%string) in
  let k2 := Event 2 "topic" "event_mine" (Some "ord"%string) in
  let u1 := Event 3 "topic" "event_mine" None in
  let u2 := Event 4 "topic" "event_mine" None in
  let lanes := after [CallPost (EventObj k1); CallPost (EventObj k2)] (__init__ 1 1 true) in
  let zero := after [CallPost (EventObj u1); CallPost (EventObj u2)] (__init__ 0 1 true) in
  let full := after [CallPost (EventObj u1)] (__init__ 1 1 true) in
  (reachable lanes
   /\ queue_store lanes !! event_queue lanes = Some (mkQueue 1 [])
   /\ queue_store lanes !! 1%nat = Some (mkQueue 0 [k1; k2])
   /\ total_queued lanes = 2%nat
   /\ 1 < Z.of_nat (total_queued lanes))
  /\ (reachable zero
      /\ queue_store zero !! event_queue zero = Some (mkQueue 0 [u1; u2])
      /\ 0 < Z.of_nat (queue_length zero (event_queue zero)))
  /\ (reachable full
      /\ queue_store full !! event_queue full = Some (mkQueue 1 [u1])
      /\ post (EventObj u2) full = Blocked full
      /\ forall n,
           let later := after (replicate n (CallPost (EventObj k1))) full in
           reachable later
           /\ queue_length later 1%nat = n
           /\ post (EventObj u2) later = Blocked later).
Proof.
  intros k1 k2 u1 u2 lanes zero full.
  assert (rtc step (__init__ 1 1 true) full) as Hfull.
  { apply rtc_once. exists (CallPost (EventObj u1)). vm_compute; reflexivity. }
  split_and!.
  - apply reachable_after; [apply reachable_init | vm_compute; reflexivity].
  - vm_compute; reflexivity.
  - vm_compute; reflexivity.
  - vm_compute; reflexivity.
  - vm_compute; reflexivity.
  - apply reachable_after; [apply reachable_init | vm_compute; reflexivity].
  - vm_compute; reflexivity.
  - vm_compute; reflexivity.
  - by exists 1, 1, true.
  - vm_compute; reflexivity.
  - vm_compute; reflexivity.
  - intros n later.
    assert (S (Z.to_nat (lane_index "ord" (Z.min 1 MAX_EXECUTOR_COUNT))) = 1%nat) as Hr
      by (vm_compute; reflexivity).
    destruct (keyed_posts_fill_lane 1 1 true k1 "ord" n ltac:(lia) eq_refl
                full (mkQueue 1 [u1]) (mkQueue 0 []) Hfull)
      as (b' & Hrun & Hsteps & Hk & Hshared & Hlane);
      [vm_compute; reflexivity..|].
    rewrite Hr in Hlane.
    assert (later = b') as -> by (unfold later, after; by rewrite Hrun).
    split_and!.
    + by exists 1, 1, true.
    + unfold queue_length. rewrite Hlane. cbn [items app]. apply length_replicate.
    + rewrite (post_valid (EventObj u2) b' u2 eq_refl Hk).
      by rewrite (_choose_queue_unordered u2 b' eq_refl), Hshared.
Qed.

(** A full shared queue blocks [post]; nothing is rejected. *)
Example post_blocks_when_full :
  let e1 := Event 1 "topic" "event_mine" None in
  let e2 := Event 2 "topic" "event_mine" None in
  let b := after [CallPost (EventObj e1)] (__init__ 1 1 true) in
  post (EventObj e2) b = Blocked b.
Proof. vm_compute. reflexivity. Qed.

(** * Further properties of the bus *)

(** ** The registry and its inverse map *)

(** [c] is in the list of the topic [t]. *)
Definition subscribed (d : gmap string (list object)) (c : object) (t : string) : Prop :=
  exists subs, d !! t = Some subs /\ c ∈ subs.

(** [t] is in the list of topics that [self.consumers] keeps for [c]. *)
Definition listed (m : gmap object (list string)) (c : object) (t : string) : Prop :=
  exists ts, m !! c = Some ts /\ t ∈ ts.

(** The registry and the inverse map record the same subscriptions. *)
Definition consistent (d : gmap string (list object)) (m : gmap object (list string)) : Prop :=
  forall c t, subscribed d c t <-> listed m c t.

(** No topic is kept with an empty list. *)
Definition nonempty_lists (d : gmap string (list object)) : Prop :=
  forall t subs, d !! t = Some subs -> subs <> [].

(** When subscribers are not thread safe, every consumer of the inverse
    map has a lock. *)
Definition locks_cover (b : bus) : Prop :=
  subscribers_thread_safe b = false ->
  forall c, is_Some (consumers b !! c) -> is_Some (subscriber_locks b !! c).

(** The locks of the subscribers were handed out by [Lock()] after the three
    locks of the bus, one for each subscriber. *)
Definition locks_fresh (b : bus) : Prop :=
  (3 <= next_lock b)%nat
  /\ (forall c lk, subscriber_locks b !! c = Some lk -> (3 <= lk < next_lock b)%nat)
  /\ (forall c c' lk, subscriber_locks b !! c = Some lk ->
        subscriber_locks b !! c' = Some lk -> c = c').

Record registry_inv (b : bus) : Prop := {
  ri_registry : exists r d l,
    quiescent b r d l /\ nodup_lists d /\ consistent d (consumers b) /\ nonempty_lists d;
  ri_guards : subscribers_thread_safe b = true -> subscriber_locks b = ∅;
  ri_cover : locks_cover b;
  ri_fresh : locks_fresh b;
  ri_bus_locks : consumers_lock b = 0%nat /\ shutdown_lock b = 1%nat
}.

Lemma remove_first_elem {A} `{EqDecision A} (x y : A) (l : list A) :
  NoDup l -> y ∈ remove_first x l <-> y ∈ l /\ y <> x.
Proof.
  induction l as [|z l IH]; simpl; intros Hnd.
  - split; [intros H | intros [H _]]; by apply elem_of_nil in H.
  - pose proof (NoDup_cons_1_1 _ _ Hnd) as Hz. apply NoDup_cons_1_2 in Hnd.
    destruct (decide (x = z)) as [->|Hne].
    + rewrite elem_of_cons. split.
      * intros Hy. split; [by right|]. by intros ->.
      * intros [[->|Hy] Hne]; done.
    + rewrite !elem_of_cons, IH by done. split.
      * intros [->|[Hy Hyx]]; [split; [by left | congruence] | split; [by right | done]].
      * intros [[->|Hy] Hyx]; [by left | by right].
Qed.

Lemma subscribed_register_dict c t d c' t' :
  subscribed (register_dict c t d) c' t' <-> subscribed d c' t' \/ (c' = c /\ t' = t).
Proof.
  unfold subscribed, register_dict.
  destruct (d !! t) as [l0|] eqn:Ht.
  - destruct (decide (c ∈ l0)) as [Hin|Hin].
    + split; [by left|]. intros [H|[-> ->]]; [done | by exists l0].
    + destruct (decide (t = t')) as [<-|Hne].
      * rewrite lookup_insert_eq. split.
        -- intros (subs & [= <-] & Hc). apply elem_of_app in Hc as [Hc|Hc].
           ++ left. by exists l0.
           ++ right. by apply list_elem_of_singleton in Hc.
        -- intros [(subs & Hs & Hc)|[-> _]]; eexists; (split; [done|]);
             apply elem_of_app; [left; congruence | right; by apply list_elem_of_singleton].
      * rewrite lookup_insert_ne by done. split; [by left|].
        intros [H|[_ ->]]; done.
  - destruct (decide (t = t')) as [<-|Hne].
    + rewrite lookup_insert_eq, Ht. split.
      * intros (subs & [= <-] & Hc). right. by apply list_elem_of_singleton in Hc.
      * intros [(subs & [=] & _)|[-> _]]. eexists. split; [done|].
        by apply list_elem_of_singleton.
    + rewrite lookup_insert_ne by done. split; [by left|].
      intros [H|[_ ->]]; done.
Qed.

Lemma listed_register_topics c t m c' t' :
  listed (register_topics c t m) c' t' <-> listed m c' t' \/ (c' = c /\ t' = t).
Proof.
  unfold listed, register_topics.
  destruct (m !! c) as [ts0|] eqn:Hc.
  - destruct (decide (t ∈ ts0)) as [Hin|Hin].
    + split; [by left|]. intros [H|[-> ->]]; [done | by exists ts0].
    + destruct (decide (c = c')) as [<-|Hne].
      * rewrite lookup_insert_eq. split.
        -- intros (ts & [= <-] & Ht). apply elem_of_app in Ht as [Ht|Ht].
           ++ left. by exists ts0.
           ++ right. by apply list_elem_of_singleton in Ht.
        -- intros [(ts & Hs & Ht)|[_ ->]]; eexists; (split; [done|]);
             apply elem_of_app; [left; congruence | right; by apply list_elem_of_singleton].
      * rewrite lookup_insert_ne by done. split; [by left|].
        intros [H|[-> _]]; done.
  - destruct (decide (c = c')) as [<-|Hne].
    + rewrite lookup_insert_eq, Hc. split.
      * intros (ts & [= <-] & Ht). right. by apply list_elem_of_singleton in Ht.
      * intros [(ts & [=] & _)|[_ ->]]. eexists. split; [done|].
        by apply list_elem_of_singleton.
    + rewrite lookup_insert_ne by done. split; [by left|].
      intros [H|[-> _]]; done.
Qed.

Lemma subscribed_unregister_dict c t d c' t' :
  nodup_lists d ->
  subscribed (unregister_dict c t d) c' t' <-> subscribed d c' t' /\ ~ (c' = c /\ t' = t).
Proof.
  intros Hnd. unfold subscribed, unregister_dict.
  destruct (d !! t) as [l0|] eqn:Ht.
  - destruct (decide (c ∈ l0)) as [Hin|Hin].
    + cbn zeta. pose proof (Hnd t l0 Ht) as Hl0.
      destruct (Nat.eqb_spec (length (remove_first c l0)) 0) as [Hlen|Hlen].
      * apply nil_length_inv in Hlen.
        destruct (decide (t = t')) as [<-|Hne].
        -- rewrite lookup_delete_eq, Ht. split; [by intros (? & [=] & _)|].
           intros [(subs & [= <-] & Hc) Hno].
           destruct (decide (c' = c)) as [->|Hcc]; [by destruct Hno|].
           assert (c' ∈ remove_first c l0) as H by (by apply remove_first_elem).
           rewrite Hlen in H. by apply elem_of_nil in H.
        -- rewrite lookup_delete_ne by done. split; [|by intros [H _]].
           intros H. split; [done|]. by intros [_ ->].
      * destruct (decide (t = t')) as [<-|Hne].
        -- rewrite lookup_insert_eq, Ht. split.
           ++ intros (subs & [= <-] & Hc). apply remove_first_elem in Hc as [Hc Hcc]; [|done].
              split; [by exists l0 | by intros [-> _]].
           ++ intros [(subs & [= <-] & Hc) Hno]. eexists. split; [done|].
              apply remove_first_elem; [done|]. split; [done|]. by intros ->; apply Hno.
        -- rewrite lookup_insert_ne by done. split; [|by intros [H _]].
           intros H. split; [done|]. by intros [_ ->].
    + split; [|by intros [H _]]. intros (subs & Hs & Hc). split; [by exists subs|].
      intros [-> ->]. congruence.
  - split; [|by intros [H _]]. intros (subs & Hs & Hc). split; [by exists subs|].
    intros [_ ->]. congruence.
Qed.

Lemma subscribed_unregister_fold c ts : forall d c' t',
  nodup_lists d ->
  subscribed (fold_left (fun d t => unregister_dict c t d) ts d) c' t'
  <-> subscribed d c' t' /\ ~ (c' = c /\ t' ∈ ts).
Proof.
  induction ts as [|t ts IH]; intros d c' t' Hnd; simpl.
  - split; [|by intros [H _]]. intros H. split; [done|].
    intros [_ Hin]. by apply elem_of_nil in Hin.
  - rewrite IH by (by apply nodup_unregister_dict).
    rewrite subscribed_unregister_dict by done. rewrite elem_of_cons. tauto.
Qed.

Lemma nonempty_register_dict c t d : nonempty_lists d -> nonempty_lists (register_dict c t d).
Proof.
  intros Hd t' subs. unfold register_dict.
  destruct (d !! t) as [l0|] eqn:Ht.
  - destruct (decide (c ∈ l0)); [apply Hd|].
    destruct (decide (t = t')) as [<-|Hne].
    + rewrite lookup_insert_eq. intros [= <-]. by destruct l0.
    + rewrite lookup_insert_ne by done. apply Hd.
  - destruct (decide (t = t')) as [<-|Hne].
    + rewrite lookup_insert_eq. by intros [= <-].
    + rewrite lookup_insert_ne by done. apply Hd.
Qed.

Lemma nonempty_unregister_dict c t d :
  nonempty_lists d -> nonempty_lists (unregister_dict c t d).
Proof.
  intros Hd t' subs. unfold unregister_dict.
  destruct (d !! t) as [l0|] eqn:Ht; [|apply Hd].
  destruct (decide (c ∈ l0)); [|apply Hd]. cbn zeta.
  destruct (Nat.eqb_spec (length (remove_first c l0)) 0) as [Hlen|Hlen].
  - destruct (decide (t = t')) as [<-|Hne].
    + by rewrite lookup_delete_eq.
    + rewrite lookup_delete_ne by done. apply Hd.
  - destruct (decide (t = t')) as [<-|Hne].
    + rewrite lookup_insert_eq. intros [= <-] Hnil. by rewrite Hnil in Hlen.
    + rewrite lookup_insert_ne by done. apply Hd.
Qed.

Lemma nonempty_unregister_fold c ts d :
  nonempty_lists d -> nonempty_lists (fold_left (fun d t => unregister_dict c t d) ts d).
Proof.
  revert d. induction ts as [|t ts IH]; simpl; intros d Hd; [done|].
  by apply IH, nonempty_unregister_dict.
Qed.

Lemma register_effect_fields r d c t b :
  let b' := register_effect r d c t b in
  subscribers_thread_safe b' = subscribers_thread_safe b
  /\ consumers_lock b' = consumers_lock b
  /\ shutdown_lock b' = shutdown_lock b
  /\ keep_running b' = keep_running b
  /\ stop_time b' = stop_time b
  /\ queue_store b' = queue_store b
  /\ (if negb (subscribers_thread_safe b)
         && negb (bool_decide (is_Some (subscriber_locks b !! c)))
      then subscriber_locks b' = <[c := next_lock b]> (subscriber_locks b)
           /\ next_lock b' = S (next_lock b)
      else subscriber_locks b' = subscriber_locks b /\ next_lock b' = next_lock b).
Proof.
  unfold register_effect, register_locks.
  change (subscribers_thread_safe
            (set_consumers (register_topics c t)
               (set_dict_store (insert r (register_dict c t d)) b)))
    with (subscribers_thread_safe b).
  change (subscriber_locks
            (set_consumers (register_topics c t)
               (set_dict_store (insert r (register_dict c t d)) b)))
    with (subscriber_locks b).
  by destruct (negb (subscribers_thread_safe b) && _).
Qed.

Lemma is_Some_register_topics c t m c' :
  is_Some (register_topics c t m !! c') <-> is_Some (m !! c') \/ c' = c.
Proof.
  unfold register_topics. destruct (m !! c) as [ts0|] eqn:Hc.
  - destruct (decide (t ∈ ts0)).
    + split; [by left|]. intros [H| ->]; [done | by rewrite Hc].
    + destruct (decide (c = c')) as [<-|Hne].
      * rewrite lookup_insert_eq. split; [by right | done].
      * rewrite lookup_insert_ne by done. split; [by left|]. by intros [H| ->].
  - destruct (decide (c = c')) as [<-|Hne].
    + rewrite lookup_insert_eq. split; [by right | done].
    + rewrite lookup_insert_ne by done. split; [by left|]. by intros [H| ->].
Qed.

Lemma registry_inv_bus_inv b : registry_inv b -> bus_inv b.
Proof.
  intros [(r & d & l & Hq & Hnd & _) Hg _ _ _]. split; [|done]. by exists r, d, l.
Qed.

Lemma registry_inv_init mq ec safe : registry_inv (__init__ mq ec safe).
Proof.
  split.
  - exists 0%nat, ∅, 2%nat. split_and!.
    + split; done.
    + intros t subs. by rewrite lookup_empty.
    + intros c t. unfold subscribed, listed. simpl. split.
      * intros (subs & Hs & _). by rewrite lookup_empty in Hs.
      * intros (ts & Hs & _). by rewrite lookup_empty in Hs.
    + intros t subs. by rewrite lookup_empty.
  - done.
  - intros _ c. simpl. rewrite lookup_empty. by intros [? ?].
  - split_and!; simpl; [lia | |]; intros *; by rewrite lookup_empty.
  - done.
Qed.

Lemma registry_inv_transfer b b' :
  same_static b b' -> same_held b b' -> same_registry b b' ->
  registry_inv b -> registry_inv b'.
Proof.
  intros (Hsafe & Ht & Hcl & Hsl' & Hil & _) Hh (Hd & Hc & Hsl & Hn)
    [(r & d & l & [] & Hnd & Hcons & Hne) Hg Hcov (Hf1 & Hf2 & Hf3) [Hb1 Hb2]].
  split.
  - exists r, d, l. split_and!; [split; congruence | done | by rewrite Hc | done].
  - rewrite Hsafe, Hsl. exact Hg.
  - unfold locks_cover. rewrite Hsafe, Hc, Hsl. exact Hcov.
  - unfold locks_fresh. rewrite Hsl, Hn. done.
  - split; congruence.
Qed.

Lemma registry_inv_register_effect b r d l c t :
  quiescent b r d l -> registry_inv b ->
  registry_inv (register_effect r d c t b).
Proof.
  intros Hq Hinv.
  pose proof Hinv as [(r0 & d0 & l0 & Hq0 & Hnd & Hcons & Hne) Hg Hcov (Hf1 & Hf2 & Hf3)
                        [Hb1 Hb2]].
  assert (r0 = r) as ->.
  { destruct Hq as [_ Ht _ _ _], Hq0 as [_ Ht0 _ _ _]. rewrite Ht in Ht0.
    by injection Ht0. }
  assert (d0 = d) as ->.
  { destruct Hq as [_ _ Hd _ _], Hq0 as [_ _ Hd0 _ _]. congruence. }
  destruct (register_effect_inv b r d l c t Hq Hnd Hg) as [Hq1 [_ Hg1]].
  destruct (register_effect_fields r d c t b)
    as (Hsafe & Hcl & Hsl & _ & _ & _ & Hlocks).
  split.
  - exists r, (register_dict c t d), l. split_and!.
    + done.
    + by apply nodup_register_dict.
    + intros c' t'. rewrite consumers_register_effect, subscribed_register_dict,
        listed_register_topics. by rewrite (Hcons c' t').
    + by apply nonempty_register_dict.
  - done.
  - unfold locks_cover. rewrite Hsafe, consumers_register_effect. intros Hs c' Hc'.
    apply is_Some_register_topics in Hc'. rewrite Hs in Hlocks. cbn [negb andb] in Hlocks.
    destruct (bool_decide (is_Some (subscriber_locks b !! c))) eqn:Hbd;
      cbn [negb] in Hlocks; destruct Hlocks as [-> _].
    + apply bool_decide_eq_true_1 in Hbd. destruct Hc' as [Hc'| ->]; [by apply Hcov | done].
    + destruct (decide (c = c')) as [<-|Hcc].
      * by rewrite lookup_insert_eq.
      * rewrite lookup_insert_ne by done. destruct Hc' as [Hc'| ->]; [by apply Hcov | done].
  - unfold locks_fresh.
    destruct (negb (subscribers_thread_safe b) && _) eqn:Hcond.
    + destruct Hlocks as [-> ->].
      apply andb_true_iff in Hcond as [_ Hnone]. apply negb_true_iff in Hnone.
      apply bool_decide_eq_false_1 in Hnone.
      split_and!; [lia | |].
      * intros c' lk. destruct (decide (c = c')) as [<-|Hcc].
        -- rewrite lookup_insert_eq. intros [= <-]. lia.
        -- rewrite lookup_insert_ne by done. intros H. apply Hf2 in H. lia.
      * intros c1 c2 lk. destruct (decide (c = c1)) as [<-|H1], (decide (c = c2)) as [<-|H2];
          rewrite ?lookup_insert_eq, ?lookup_insert_ne by done; [done | | |].
        -- intros [= <-] H. apply Hf2 in H. lia.
        -- intros H [= <-]. apply Hf2 in H. lia.
        -- apply Hf3.
    + destruct Hlocks as [-> ->]. done.
  - split; congruence.
Qed.

Lemma registry_inv_register_consumer b c t :
  registry_inv b -> exists v b', register_consumer c t b = Return v b' /\ registry_inv b'.
Proof.
  intros Hb. destruct (isinstance_Subscriber c) eqn:Hc.
  - pose proof Hb as [(r & d & l & Hq & _) _ _ _ _].
    exists None, (register_effect r d c t b). split.
    + by eapply register_consumer_eval.
    + by eapply registry_inv_register_effect.
  - exists (Some false), b. split; [|done].
    unfold register_consumer. by rewrite Hc.
Qed.

Lemma registry_inv_register_consumer_topics b c ts :
  registry_inv b ->
  exists b', register_consumer_topics c ts b = Return tt b' /\ registry_inv b'.
Proof.
  revert b. induction ts as [|t ts IH]; intros b Hb.
  - by exists b.
  - destruct (registry_inv_register_consumer b c t Hb) as (v & b1 & Hr & Hb1).
    destruct (IH b1 Hb1) as (b2 & Hts & Hb2).
    exists b2. split; [|done].
    unfold register_consumer_topics in *. cbn [for_each]. unfold bind. rewrite Hr.
    unfold ret at 1. exact Hts.
Qed.

Lemma listed_delete c m c' t' :
  listed (delete c m) c' t' <-> listed m c' t' /\ c' <> c.
Proof.
  unfold listed. destruct (decide (c = c')) as [<-|Hne].
  - rewrite lookup_delete_eq. split; [by intros (? & [=] & _) | by intros [_ ?]].
  - rewrite lookup_delete_ne by done. split; [|by intros [H _]].
    intros H. split; [done | congruence].
Qed.

Lemma registry_inv_unregister_effect b r d l c ts :
  quiescent b r d l -> consumers b !! c = Some ts -> registry_inv b ->
  registry_inv (unregister_effect r d c ts b).
Proof.
  intros Hq Hcs Hinv.
  pose proof Hinv as [(r0 & d0 & l0 & Hq0 & Hnd & Hcons & Hne) Hg Hcov Hfresh Hbl].
  assert (r0 = r) as ->.
  { destruct Hq as [_ Ht _ _ _], Hq0 as [_ Ht0 _ _ _]. rewrite Ht in Ht0.
    by injection Ht0. }
  assert (d0 = d) as ->.
  { destruct Hq as [_ _ Hd _ _], Hq0 as [_ _ Hd0 _ _]. congruence. }
  destruct (unregister_effect_inv b r d l c ts Hq Hnd Hg) as [Hq1 _].
  unfold unregister_effect in *. rewrite unregister_locks_inv in * by done.
  split.
  - eexists r, _, l. split_and!.
    + exact Hq1.
    + by apply nodup_unregister_fold.
    + intros c' t'. simpl. rewrite subscribed_unregister_fold, listed_delete by done.
      rewrite (Hcons c' t'). split.
      * intros [Hl Hno]. split; [done|]. intros ->. apply Hno. split; [done|].
        destruct Hl as (ts' & Hts' & Hin). congruence.
      * intros [Hl Hcc]. split; [done|]. by intros [-> _].
    + by apply nonempty_unregister_fold.
  - exact Hg.
  - intros Hs c' Hc'. simpl in Hc'. apply Hcov; [done|].
    destruct (decide (c = c')) as [<-|Hcc].
    + by rewrite lookup_delete_eq in Hc'; destruct Hc'.
    + by rewrite lookup_delete_ne in Hc'.
  - exact Hfresh.
  - exact Hbl.
Qed.

Lemma registry_inv_unregister_consumer b c :
  registry_inv b ->
  exists b', final (unregister_consumer c b) = Some b' /\ registry_inv b'.
Proof.
  intros Hb. pose proof Hb as [(r & d & l & Hq & _) Hg _ _ _].
  rewrite (unregister_consumer_eval b r d l c Hq).
  destruct (consumers b !! c) as [ts|] eqn:Hc.
  - eexists. split; [done|]. by eapply registry_inv_unregister_effect.
  - eexists. split; [done|]. by rewrite unregister_locks_inv.
Qed.

Lemma registry_inv_run c b b' : registry_inv b -> run c b = Some b' -> registry_inv b'.
Proof.
  intros Hb Hrun.
  destruct c as [o | co t | co ts | co | co t | now | name now];
    try (apply (registry_inv_transfer b b');
         [ eapply run_same_static; exact Hrun
         | eapply run_same_held; exact Hrun
         | eapply run_same_registry; [|exact Hrun]; exact I
         | exact Hb ]).
  - simpl in Hrun.
    destruct (registry_inv_register_consumer b co t Hb) as (v & b1 & Hr & Hb1).
    rewrite Hr in Hrun. simpl in Hrun. by simplify_eq.
  - simpl in Hrun.
    destruct (registry_inv_register_consumer_topics b co ts Hb) as (b1 & Hr & Hb1).
    rewrite Hr in Hrun. simpl in Hrun. by simplify_eq.
  - simpl in Hrun. destruct (registry_inv_unregister_consumer b co Hb) as (b1 & Hr & Hb1).
    rewrite Hr in Hrun. by simplify_eq.
Qed.

Lemma reachable_registry_inv b : reachable b -> registry_inv b.
Proof.
  intros (mq & ec & safe & Hsteps).
  revert b Hsteps. apply rtc_ind_r; [apply registry_inv_init|].
  intros b1 b2 _ [c Hc] IH. by eapply registry_inv_run.
Qed.

Lemma _get_subscribers_eval b r d l t :
  quiescent b r d l ->
  _get_subscribers t b =
    Return (match d !! t with Some subs => subs | None => [] end) b.
Proof.
  intros [Hh Ht Hd Hl Hne]. unfold _get_subscribers.
  unfold bind at 1. unfold get at 1. unfold bind at 1. rewrite Hl.
  rewrite list_getitem_replicate by apply topic_index_in_range.
  rewrite with_lock_free by (rewrite Hh; apply not_elem_of_nil).
  unfold bind at 1. erewrite shard_eval; [|simpl; done..| apply topic_index_in_range].
  destruct (d !! t); unfold ret; by rewrite release_acquired.
Qed.

Lemma subscribed_get_subscribers d c t :
  subscribed d c t <-> c ∈ match d !! t with Some subs => subs | None => [] end.
Proof.
  unfold subscribed. destruct (d !! t) as [subs|].
  - split; [by intros (? & [= <-] & ?) | intros H; by exists subs].
  - split; [by intros (? & [=] & _) | intros H; by apply elem_of_nil in H].
Qed.

(** X1. [_get_subscribers] does not change the bus, and the registry agrees
    with the inverse map: a consumer is in the list [_get_subscribers]
    returns for a topic exactly when the topic is in the list
    [self.consumers] keeps for the consumer. *)
Theorem registry_agrees_with_inverse_map (b : bus) (c : object) (t : string) :
  reachable b ->
  exists subs,
    _get_subscribers t b = Return subs b
    /\ NoDup subs
    /\ (c ∈ subs <-> exists ts, consumers b !! c = Some ts /\ t ∈ ts).
Proof.
  intros Hb. apply reachable_registry_inv in Hb
    as [(r & d & l & Hq & Hnd & Hcons & _) _ _ _ _].
  eexists. split; [by eapply _get_subscribers_eval|]. split.
  - destruct (d !! t) as [subs|] eqn:Ht; [by eapply Hnd | apply NoDup_nil_2].
  - rewrite <- subscribed_get_subscribers. apply Hcons.
Qed.

Lemma registry_agrees_with_inverse_map_witness :
  let c := SubscriberObj 1 in
  let b := after [CallRegisterConsumerTopics c ["a"; "b"]%string] (__init__ 10000 2 true) in
  exists subs,
    _get_subscribers "b" b = Return subs b
    /\ NoDup subs
    /\ (c ∈ subs <-> exists ts, consumers b !! c = Some ts /\ "b"%string ∈ ts).
Proof.
  intros c b. apply registry_agrees_with_inverse_map.
  apply reachable_after; [apply reachable_init | vm_compute; reflexivity].
Defined.

(** X2. A topic is a key of the shard dictionary only while it has a
    subscriber: no list of the registry is empty. *)
Theorem registry_has_no_empty_topic (b : bus) (i : Z) :
  reachable b -> 0 <= i < MAX_TOPIC_INDEX ->
  exists r d,
    shard i b = Return (r, d) b
    /\ forall t subs, d !! t = Some subs -> subs <> [].
Proof.
  intros Hb Hi. apply reachable_registry_inv in Hb
    as [(r & d & l & Hq & _ & _ & Hne) _ _ _ _].
  exists r, d. split; [|done]. destruct Hq. by apply shard_eval.
Qed.

Lemma registry_has_no_empty_topic_witness :
  let c := SubscriberObj 1 in
  let b := after [CallRegisterConsumer c "a"; CallUnregisterConsumer c]
             (__init__ 10000 2 true) in
  exists r d,
    shard 5 b = Return (r, d) b
    /\ forall t subs, d !! t = Some subs -> subs <> [].
Proof.
  intros c b. apply registry_has_no_empty_topic; [|done].
  apply reachable_after; [apply reachable_init | vm_compute; reflexivity].
Defined.

(** X3. After [register_consumer(c, t)] of a subscriber, [is_subscribed(c, t)]
    returns [True] and [_get_subscribers(t)] contains [c]; a subscriber
    that is new to the topic goes to the end of its list. *)
Theorem register_then_subscribed (b : bus) (c : object) (t : string) :
  reachable b -> isinstance_Subscriber c = true ->
  exists b1 before after_,
    register_consumer c t b = Return None b1
    /\ is_subscribed c t b1 = Return true b1
    /\ _get_subscribers t b = Return before b
    /\ _get_subscribers t b1 = Return after_ b1
    /\ after_ = (if decide (c ∈ before) then before else before ++ [c]).
Proof.
  intros Hb Hc. apply reachable_inv in Hb as [(r & d & l & Hq & Hnd) Hg].
  destruct (register_effect_inv b r d l c t Hq Hnd Hg) as [Hq1 _].
  eexists _, _, _. split_and!.
  - by eapply register_consumer_eval.
  - rewrite (is_subscribed_eval _ r _ l c t Hq1 Hc). f_equal.
    destruct (register_dict_lookup c t d) as (subs & -> & Hin).
    by apply bool_decide_eq_true_2.
  - by eapply _get_subscribers_eval.
  - by eapply _get_subscribers_eval.
  - unfold register_dict. destruct (d !! t) as [l0|] eqn:Ht.
    + destruct (decide (c ∈ l0)); [by rewrite Ht | by rewrite lookup_insert_eq].
    + rewrite lookup_insert_eq. rewrite decide_False; [done | apply not_elem_of_nil].
Qed.

Lemma register_then_subscribed_witness :
  exists b1 before after_,
    register_consumer (SubscriberObj 2) "a" (__init__ 10000 2 false) = Return None b1
    /\ is_subscribed (SubscriberObj 2) "a" b1 = Return true b1
    /\ _get_subscribers "a" (__init__ 10000 2 false) = Return before (__init__ 10000 2 false)
    /\ _get_subscribers "a" b1 = Return after_ b1
    /\ after_ = (if decide (SubscriberObj 2 ∈ before) then before
                 else before ++ [SubscriberObj 2]).
Proof. apply register_then_subscribed; [apply reachable_init | reflexivity]. Defined.

Lemma set_consumers_fix (f : gmap object (list string) -> gmap object (list string)) b :
  f (consumers b) = consumers b -> set_consumers f b = b.
Proof. intros H. destruct b; unfold set_consumers; simpl in *. by rewrite H. Qed.

(** X4. [register_consumer] is idempotent: a second registration of the
    same subscriber to the same topic returns and leaves the bus as the
    first one left it (no second entry, no second lock). *)
Theorem register_consumer_idempotent (b : bus) (c : object) (t : string) :
  reachable b -> isinstance_Subscriber c = true ->
  exists b1,
    register_consumer c t b = Return None b1
    /\ register_consumer c t b1 = Return None b1.
Proof.
  intros Hb Hc. pose proof (reachable_registry_inv b Hb) as Hinv.
  pose proof Hinv as [(r & d & l & Hq & Hnd & _) Hg _ _ _].
  destruct (register_effect_inv b r d l c t Hq Hnd Hg) as [Hq1 _].
  pose proof (registry_inv_register_effect b r d l c t Hq Hinv) as Hinv1.
  exists (register_effect r d c t b). split; [by eapply register_consumer_eval|].
  rewrite (register_consumer_eval _ r _ l c t Hq1 Hc). f_equal.
  set (b1 := register_effect r d c t b) in *.
  unfold register_effect.
  assert (register_dict c t (register_dict c t d) = register_dict c t d) as ->.
  { destruct (register_dict_lookup c t d) as (subs & Hs & Hin).
    unfold register_dict at 1. rewrite Hs. by rewrite decide_True. }
  destruct Hq1 as [_ _ Hd1 _ _]. rewrite set_dict_store_id by done.
  assert (register_topics c t (consumers b1) = consumers b1) as Htop.
  { subst b1. rewrite consumers_register_effect.
    destruct (register_topics_lookup c t (consumers b)) as (ts & Hs & Hin).
    unfold register_topics at 1. rewrite Hs. by rewrite decide_True. }
  rewrite set_consumers_fix by done.
  unfold register_locks. destruct (subscribers_thread_safe b1) eqn:Hs; [done|].
  destruct Hinv1 as [_ _ Hcov _ _].
  assert (is_Some (subscriber_locks b1 !! c)) as Hlk.
  { apply Hcov; [done|]. subst b1. rewrite consumers_register_effect.
    apply is_Some_register_topics. by right. }
  by rewrite bool_decide_eq_true_2.
Qed.

Lemma register_consumer_idempotent_witness :
  exists b1,
    register_consumer (SubscriberObj 2) "a" (__init__ 10000 2 false) = Return None b1
    /\ register_consumer (SubscriberObj 2) "a" b1 = Return None b1.
Proof. apply register_consumer_idempotent; [apply reachable_init | reflexivity]. Defined.

Lemma unregister_effect_fields r d c ts b :
  (subscribers_thread_safe b = true -> subscriber_locks b = ∅) ->
  unregister_effect r d c ts b =
    set_dict_store (insert r (fold_left (fun d t => unregister_dict c t d) ts d))
      (set_consumers (delete c) b).
Proof. intros Hg. unfold unregister_effect. by rewrite unregister_locks_inv. Qed.

(** X5. [unregister_consumer] of a registered consumer returns, removes the
    consumer from the inverse map and from the list of every topic, the
    topics of other shards included. *)
Theorem unregister_removes_everywhere (b : bus) (c : object) (ts : list string) :
  reachable b -> consumers b !! c = Some ts ->
  exists b',
    unregister_consumer c b = Return tt b'
    /\ consumers b' !! c = None
    /\ forall t, exists subs, _get_subscribers t b' = Return subs b' /\ c ∉ subs.
Proof.
  intros Hb Hc. pose proof (reachable_registry_inv b Hb) as Hinv.
  pose proof Hinv as [(r & d & l & Hq & Hnd & Hcons & _) Hg _ _ _].
  destruct (unregister_effect_inv b r d l c ts Hq Hnd Hg) as [Hq1 _].
  exists (unregister_effect r d c ts b). split_and!.
  - by rewrite (unregister_consumer_eval b r d l c Hq), Hc.
  - rewrite unregister_effect_fields by done. simpl. apply lookup_delete_eq.
  - intros t. eexists. split; [by eapply _get_subscribers_eval|].
    rewrite <- subscribed_get_subscribers, subscribed_unregister_fold by done.
    intros [Hsub Hno]. apply Hno. split; [done|].
    apply Hcons in Hsub as (ts' & Hts' & Hin). congruence.
Qed.

Lemma unregister_removes_everywhere_witness :
  let c := SubscriberObj 1 in
  let b := after [CallRegisterConsumerTopics c ["a"; "b"]%string] (__init__ 10000 2 true) in
  exists b',
    unregister_consumer c b = Return tt b'
    /\ consumers b' !! c = None
    /\ forall t, exists subs, _get_subscribers t b' = Return subs b' /\ c ∉ subs.
Proof.
  intros c b. apply (unregister_removes_everywhere b c ["a"; "b"]%string).
  - apply reachable_after; [apply reachable_init | vm_compute; reflexivity].
  - vm_compute; reflexivity.
Defined.

Lemma unregister_dict_sublist c t0 t d :
  match unregister_dict c t0 d !! t with Some subs => subs | None => [] end
  `sublist_of` match d !! t with Some subs => subs | None => [] end.
Proof.
  unfold unregister_dict. destruct (d !! t0) as [l0|] eqn:Ht0; [|done].
  destruct (decide (c ∈ l0)); [|done]. cbn zeta.
  destruct (length (remove_first c l0) =? 0)%nat.
  - destruct (decide (t0 = t)) as [->|Hne].
    + rewrite lookup_delete_eq, Ht0. apply sublist_nil_l.
    + by rewrite lookup_delete_ne.
  - destruct (decide (t0 = t)) as [->|Hne].
    + rewrite lookup_insert_eq, Ht0. apply remove_first_sublist.
    + by rewrite lookup_insert_ne.
Qed.

Lemma unregister_fold_sublist c t ts : forall d,
  match fold_left (fun d t => unregister_dict c t d) ts d !! t with
  | Some subs => subs | None => [] end
  `sublist_of` match d !! t with Some subs => subs | None => [] end.
Proof.
  induction ts as [|t0 ts IH]; intros d; simpl; [done|].
  etrans; [apply IH | apply unregister_dict_sublist].
Qed.

(** X6. [unregister_consumer] of a registered consumer leaves the other
    consumers as they are: their entries of the inverse map, and their
    presence and order in the list of every topic. *)
Theorem unregister_keeps_others (b : bus) (c : object) (ts : list string) (t : string) :
  reachable b -> consumers b !! c = Some ts ->
  exists b' before after_,
    unregister_consumer c b = Return tt b'
    /\ _get_subscribers t b = Return before b
    /\ _get_subscribers t b' = Return after_ b'
    /\ after_ `sublist_of` before
    /\ (forall c', c' <> c -> (c' ∈ after_ <-> c' ∈ before))
    /\ (forall c', c' <> c -> consumers b' !! c' = consumers b !! c').
Proof.
  intros Hb Hc. pose proof (reachable_registry_inv b Hb) as Hinv.
  pose proof Hinv as [(r & d & l & Hq & Hnd & Hcons & _) Hg _ _ _].
  destruct (unregister_effect_inv b r d l c ts Hq Hnd Hg) as [Hq1 _].
  eexists (unregister_effect r d c ts b), _, _. split_and!.
  - by rewrite (unregister_consumer_eval b r d l c Hq), Hc.
  - by eapply _get_subscribers_eval.
  - by eapply _get_subscribers_eval.
  - apply unregister_fold_sublist.
  - intros c' Hcc. rewrite <- !subscribed_get_subscribers.
    rewrite subscribed_unregister_fold by done. split; [by intros [H _]|].
    intros H. split; [done|]. by intros [-> _].
  - intros c' Hcc. rewrite unregister_effect_fields by done. simpl.
    by rewrite lookup_delete_ne.
Qed.

Lemma unregister_keeps_others_witness :
  let c := SubscriberObj 1 in
  let b := after [CallRegisterConsumer c "a"; CallRegisterConsumer (SubscriberObj 2) "a"]
             (__init__ 10000 2 true) in
  exists b' before after_,
    unregister_consumer c b = Return tt b'
    /\ _get_subscribers "a" b = Return before b
    /\ _get_subscribers "a" b' = Return after_ b'
    /\ after_ `sublist_of` before
    /\ (forall c', c' <> c -> (c' ∈ after_ <-> c' ∈ before))
    /\ (forall c', c' <> c -> consumers b' !! c' = consumers b !! c').
Proof.
  intros c b. apply (unregister_keeps_others b c ["a"]%string).
  - apply reachable_after; [apply reachable_init | vm_compute; reflexivity].
  - vm_compute; reflexivity.
Defined.

Lemma register_consumer_topics_eval ts : forall b r d l c,
  quiescent b r d l -> nodup_lists d ->
  (subscribers_thread_safe b = true -> subscriber_locks b = ∅) ->
  isinstance_Subscriber c = true ->
  exists b' d',
    register_consumer_topics c ts b = Return tt b'
    /\ quiescent b' r d' l
    /\ (forall c' t', subscribed d' c' t' <-> subscribed d c' t' \/ (c' = c /\ t' ∈ ts)).
Proof.
  induction ts as [|t ts IH]; intros b r d l c Hq Hnd Hg Hc.
  - exists b, d. split_and!; [done..|]. intros c' t'. split; [by left|].
    intros [H|[_ H]]; [done | by apply elem_of_nil in H].
  - destruct (register_effect_inv b r d l c t Hq Hnd Hg) as [Hq1 [_ Hg1]].
    destruct (IH _ r _ l c Hq1 (nodup_register_dict c t d Hnd) Hg1 Hc)
      as (b' & d' & Hrun & Hq' & Hsub).
    exists b', d'. split_and!; [|done|].
    + unfold register_consumer_topics in *. cbn [for_each]. unfold bind.
      rewrite (register_consumer_eval b r d l c t Hq Hc). unfold ret at 1. exact Hrun.
    + intros c' t'. rewrite Hsub, subscribed_register_dict, elem_of_cons. tauto.
Qed.

(** X7. [register_consumer_topics] registers a subscriber to every topic of
    the list and keeps every earlier subscription; for an object that is
    not a subscriber it returns with the bus unchanged. *)
Theorem register_consumer_topics_registers_all
    (b : bus) (c : object) (topic_list : list string) :
  reachable b ->
  if isinstance_Subscriber c then
    exists b',
      register_consumer_topics c topic_list b = Return tt b'
      /\ (forall t, t ∈ topic_list -> is_subscribed c t b' = Return true b')
      /\ (forall c' t, isinstance_Subscriber c' = true ->
            is_subscribed c' t b = Return true b ->
            is_subscribed c' t b' = Return true b')
  else register_consumer_topics c topic_list b = Return tt b.
Proof.
  intros Hb. destruct (isinstance_Subscriber c) eqn:Hc.
  - apply reachable_inv in Hb as [(r & d & l & Hq & Hnd) Hg].
    destruct (register_consumer_topics_eval topic_list b r d l c Hq Hnd Hg Hc)
      as (b' & d' & Hrun & Hq' & Hsub).
    assert (forall c' t', subscribed d' c' t' ->
              match d' !! t' with
              | Some subs => bool_decide (c' ∈ subs)
              | None => false
              end = true) as Hdec.
    { intros c' t' (subs & -> & Hin). by apply bool_decide_eq_true_2. }
    exists b'. split_and!; [done | |].
    + intros t Ht. rewrite (is_subscribed_eval b' r d' l c t Hq' Hc). f_equal.
      apply Hdec, Hsub. by right.
    + intros c' t Hc'. rewrite (is_subscribed_eval b r d l c' t Hq Hc').
      rewrite (is_subscribed_eval b' r d' l c' t Hq' Hc'). intros [= Hbefore].
      f_equal. apply Hdec, Hsub. left. unfold subscribed.
      destruct (d !! t) as [subs|]; [|done]. exists subs. split; [done|].
      by apply bool_decide_eq_true_1 in Hbefore.
  - clear Hb. revert b. induction topic_list as [|t ts IH]; intros b; [done|].
    unfold register_consumer_topics in *. cbn [for_each]. unfold bind.
    unfold register_consumer at 1. rewrite Hc. cbn [negb]. unfold ret at 1 2. apply IH.
Qed.

Lemma register_consumer_topics_registers_all_witness :
  exists b',
    register_consumer_topics (SubscriberObj 1) ["a"; "b"]%string (__init__ 10000 2 false)
    = Return tt b'
    /\ (forall t, t ∈ ["a"; "b"]%string ->
          is_subscribed (SubscriberObj 1) t b' = Return true b')
    /\ (forall c' t, isinstance_Subscriber c' = true ->
          is_subscribed c' t (__init__ 10000 2 false) = Return true (__init__ 10000 2 false) ->
          is_subscribed c' t b' = Return true b').
Proof.
  apply (register_consumer_topics_registers_all
           (__init__ 10000 2 false) (SubscriberObj 1) ["a"; "b"]%string).
  apply reachable_init.
Defined.

(** A call of a client of the bus, as opposed to a turn of an executor. *)
Definition client_call (c : call) : bool :=
  match c with CallExecutorTurn _ _ => false | _ => true end.

(** X8. A call of a client gives back every lock it takes. Whatever the
    state of the bus and whatever locks other threads hold, a call of
    [post], [register_consumer], [register_consumer_topics],
    [unregister_consumer], [is_subscribed] or [shutdown] that returns or
    raises leaves the locks held that were held before: the [with] blocks
    release [consumers_lock], the index lock and [shutdown_lock] on every
    path, the [TypeError] of [unregister_consumer] included. *)
Theorem no_lock_left_held (b b' : bus) (c : call) :
  client_call c = true -> run c b = Some b' -> held_locks b' = held_locks b.
Proof. intros _ Hrun. exact (run_same_held c b b' Hrun). Qed.

Lemma no_lock_left_held_witness :
  let b := set_held_locks (cons 7%nat) (__init__ 10000 2 true) in
  unregister_consumer (OtherObj 9) b = Raise TypeError b
  /\ held_locks b = [7%nat].
Proof.
  intros b. split; [vm_compute; reflexivity|].
  apply (no_lock_left_held b b (CallUnregisterConsumer (OtherObj 9))).
  - reflexivity.
  - vm_compute; reflexivity.
Defined.

(** X9. When subscribers are not thread safe, every registered consumer
    has a lock of its own: it is not [consumers_lock], [shutdown_lock] or
    the index lock, and no other consumer has it. *)
Theorem subscriber_lock_is_its_own (b : bus) (c : object) :
  reachable b -> subscribers_thread_safe b = false ->
  is_Some (consumers b !! c) ->
  exists lk,
    subscriber_locks b !! c = Some lk
    /\ lk <> consumers_lock b /\ lk <> shutdown_lock b /\ (lk ∉ index_locks b)
    /\ forall c', subscriber_locks b !! c' = Some lk -> c' = c.
Proof.
  intros Hb Hs Hc. pose proof (reachable_registry_inv b Hb)
    as [_ _ Hcov (Hf1 & Hf2 & Hf3) [Hb1 Hb2]].
  destruct Hb as (mq & ec & safe & Hsteps).
  apply reachable_static in Hsteps as (_ & _ & _ & _ & Hil & _). simpl in Hil.
  destruct (Hcov Hs c Hc) as [lk Hlk]. exists lk.
  pose proof (Hf2 c lk Hlk) as Hrange.
  split_and!; [done | lia | lia | |].
  - rewrite Hil. intros Hin. apply elem_of_replicate in Hin as [-> _]. lia.
  - intros c' Hc'. by eapply Hf3.
Qed.

Lemma subscriber_lock_is_its_own_witness :
  let c := SubscriberObj 1 in
  let b := after [CallRegisterConsumer c "a"; CallRegisterConsumer (SubscriberObj 2) "a"]
             (__init__ 10000 2 false) in
  exists lk,
    subscriber_locks b !! c = Some lk
    /\ lk <> consumers_lock b /\ lk <> shutdown_lock b /\ (lk ∉ index_locks b)
    /\ forall c', subscriber_locks b !! c' = Some lk -> c' = c.
Proof.
  intros c b. apply subscriber_lock_is_its_own.
  - apply reachable_after; [apply reachable_init | vm_compute; reflexivity].
  - vm_compute; reflexivity.
  - vm_compute. eexists. reflexivity.
Defined.

(** ** Dispatch *)

(** The subscribers come back from [process]: the call returns, or raises
    an [Exception], and has not used the bus. *)
Definition well_behaved (process : object -> event -> M unit) : Prop :=
  forall s e b,
    process s e b = Return tt b
    \/ exists x, isinstance_Exception x = true /\ process s e b = Raise x b.



Lemma quiet_well_behaved : well_behaved quiet.
Proof. intros s e b. by left. Qed.












(** ** Executors and their queues *)

Lemma to_uint_nonnil (n : nat) : Nat.to_uint n <> Decimal.Nil.
Proof.
  rewrite <- (DecimalNat.Unsigned.of_to n) at 1.
  rewrite DecimalNat.Unsigned.to_of. apply DecimalFacts.unorm_nonnil.
Qed.

Lemma executor_name_inj (i j : nat) : executor_name i = executor_name j -> i = j.
Proof.
  unfold executor_name. intros H.
  assert (NilZero.string_of_uint (Nat.to_uint i) = NilZero.string_of_uint (Nat.to_uint j))
    as Hs.
  { simpl in H. by injection H. }
  apply DecimalNat.Unsigned.to_uint_inj.
  apply (f_equal NilZero.uint_of_string) in Hs.
  rewrite !NilZero.usu in Hs by apply to_uint_nonnil. by injection Hs.
Qed.

#[local] Instance executor_name_Inj : Inj (=) (=) executor_name.
Proof. intros i j. apply executor_name_inj. Qed.

Lemma init_thread_queue_fold (l : list nat) (m : gmap string nat) (i : nat) :
  m !! executor_name i = Some (S i) \/ i ∈ l ->
  fold_left (fun m i => <[executor_name i := S i]> m) l m !! executor_name i
  = Some (S i).
Proof.
  revert m. induction l as [|a l IH]; intros m Hcase; simpl.
  - destruct Hcase as [?|Hi]; [done|]. by apply elem_of_nil in Hi.
  - apply IH. destruct (decide (a = i)) as [->|Hne].
    + left. apply lookup_insert_eq.
    + destruct Hcase as [Hm|Hi].
      * left. rewrite lookup_insert_ne; [done|]. intros H. by apply executor_name_inj in H.
      * right. apply elem_of_cons in Hi as [->|Hi]; done.
Qed.

(** The executors of a bus, in every state it reaches: executor [i] has the
    name [executor_thread_i], and its own queue is [grouped_events[i]]. *)
Lemma reached_executor (mq ec : Z) (safe : bool) (b : bus) (i : nat) :
  rtc step (__init__ mq ec safe) b ->
  Z.of_nat i < Z.min ec MAX_EXECUTOR_COUNT ->
  executors b !! i = Some (executor_name i)
  /\ grouped_events b !! i = Some (S i)
  /\ thread_specific_queue b !! executor_name i = Some (S i)
  /\ S i <> event_queue b
  /\ exists q, queue_store b !! S i = Some q /\ maxsize q = 0.
Proof.
  intros Hsteps Hi.
  pose proof (reachable_static _ _ _ _ Hsteps)
    as (_ & _ & _ & _ & _ & Heq & _ & Hex & Hlanes & Htq).
  simpl in Hex, Hlanes, Htq, Heq.
  assert (i < Z.to_nat (Z.min ec MAX_EXECUTOR_COUNT))%nat as Hlt by lia.
  assert (grouped_events b !! i = Some (S i)) as Hlane.
  { rewrite Hlanes, list_lookup_fmap, lookup_seq_lt by done. done. }
  split_and!.
  - rewrite Hex, list_lookup_fmap, lookup_seq_lt by done. done.
  - done.
  - rewrite Htq. apply init_thread_queue_fold. right.
    apply elem_of_seq. lia.
  - by rewrite Heq.
  - apply list_elem_of_lookup_2 in Hlane.
    destruct (reached_lane_queue mq ec safe b _ Hsteps Hlane) as (q & Hq & Hmax & _).
    by exists q.
Qed.

Lemma _get_next_event_own name b r q e rest :
  thread_specific_queue b !! name = Some r -> queue_store b !! r = Some q ->
  items q = e :: rest ->
  _get_next_event name b
  = Return (Some e) (set_queue_store (insert r (mkQueue (maxsize q) rest)) b).
Proof.
  intros Hn Hq Hi. unfold _get_next_event, _choose_queue_to_pull.
  unfold bind at 1. unfold bind at 1. unfold get at 1. rewrite Hn.
  unfold bind at 1. unfold queue_empty. rewrite Hq, Hi. cbn [negb]. unfold ret at 1.
  unfold try_except, queue_get. by rewrite Hq, Hi.
Qed.

Lemma _get_next_event_shared name b r q q0 :
  thread_specific_queue b !! name = Some r -> queue_store b !! r = Some q ->
  items q = [] -> queue_store b !! event_queue b = Some q0 ->
  _get_next_event name b
  = match items q0 with
    | e :: rest =>
        Return (Some e)
          (set_queue_store (insert (event_queue b) (mkQueue (maxsize q0) rest)) b)
    | [] => Return None b
    end.
Proof.
  intros Hn Hq Hi Hq0. unfold _get_next_event, _choose_queue_to_pull.
  unfold bind at 1. unfold bind at 1. unfold get at 1. rewrite Hn.
  unfold bind at 1. unfold queue_empty. rewrite Hq, Hi. cbn [negb]. unfold ret at 1.
  unfold try_except, queue_get. rewrite Hq0. by destruct (items q0).
Qed.

(** X11. An executor serves its own queue before the shared one. In every
    state a bus reaches, [_get_next_event] on executor [i] returns the
    head of [grouped_events[i]] when that queue has an event; the head of
    [event_queue] when its own queue is empty; and [None], with the bus
    unchanged, when both are empty. It never raises. *)
Theorem get_next_event_prefers_own_queue
    (mq ec : Z) (safe : bool) (b : bus) (i : nat) :
  rtc step (__init__ mq ec safe) b ->
  Z.of_nat i < Z.min ec MAX_EXECUTOR_COUNT ->
  exists own shared,
    grouped_events b !! i = Some (S i)
    /\ queue_store b !! S i = Some own
    /\ queue_store b !! event_queue b = Some shared
    /\ _get_next_event (executor_name i) b
       = match items own, items shared with
         | e :: rest, _ =>
             Return (Some e) (set_queue_store (insert (S i) (mkQueue (maxsize own) rest)) b)
         | [], e :: rest =>
             Return (Some e)
               (set_queue_store
                  (insert (event_queue b) (mkQueue (maxsize shared) rest)) b)
         | [], [] => Return None b
         end.
Proof.
  intros Hsteps Hi.
  destruct (reached_executor mq ec safe b i Hsteps Hi)
    as (_ & Hlane & Htq & _ & own & Hown & _).
  destruct (reached_shared_queue mq ec safe b Hsteps) as (shared & Hshared & _).
  exists own, shared. split_and!; [done..|].
  destruct (items own) as [|e rest] eqn:Hitems.
  - by rewrite (_get_next_event_shared _ b (S i) own shared).
  - by rewrite (_get_next_event_own _ b (S i) own e rest).
Qed.

Lemma get_next_event_prefers_own_queue_witness :
  let e1 := Event 1 "topic" "event_mine" None in
  let e2 := Event 2 "topic" "event_mine" (Some "ord"%string) in
  let b := after [CallPost (EventObj e1); CallPost (EventObj e2)] (__init__ 10 1 true) in
  exists own shared,
    grouped_events b !! 0%nat = Some 1%nat
    /\ queue_store b !! 1%nat = Some own
    /\ queue_store b !! event_queue b = Some shared
    /\ _get_next_event (executor_name 0) b
       = match items own, items shared with
         | e :: rest, _ =>
             Return (Some e) (set_queue_store (insert 1%nat (mkQueue (maxsize own) rest)) b)
         | [], e :: rest =>
             Return (Some e)
               (set_queue_store
                  (insert (event_queue b) (mkQueue (maxsize shared) rest)) b)
         | [], [] => Return None b
         end.
Proof.
  intros e1 e2 b. apply (get_next_event_prefers_own_queue 10 1 true b 0).
  - apply (rtc_l _ _ (after [CallPost (EventObj e1)] (__init__ 10 1 true))).
    + exists (CallPost (EventObj e1)). vm_compute; reflexivity.
    + apply rtc_once. exists (CallPost (EventObj e2)). vm_compute; reflexivity.
  - vm_compute; reflexivity.
Defined.

Example _get_next_event_values :
  let e1 := Event 1 "topic" "event_mine" None in
  let e2 := Event 2 "topic" "event_mine" (Some "ord"%string) in
  let b := after [CallPost (EventObj e1); CallPost (EventObj e2)] (__init__ 10 1 true) in
  let b1 := after [CallExecutorTurn (executor_name 0) 0] b in
  let b2 := after [CallExecutorTurn (executor_name 0) 0] b1 in
  queue_length b 0 = 1%nat /\ queue_length b 1 = 1%nat
  /\ queue_length b1 0 = 1%nat /\ queue_length b1 1 = 0%nat
  /\ queue_length b2 0 = 0%nat /\ queue_length b2 1 = 0%nat.
Proof. split_and!; vm_compute; reflexivity. Qed.

(** [n] successive calls of [_get_next_event] by one executor, up to the
    first that finds no event: the events it received, in order. *)
Fixpoint take_events (name : string) (n : nat) : M (list event) :=
  match n with
  | O => ret []
  | S n' =>
      let* eventobj := _get_next_event name in
      match eventobj with
      | Some eventobj =>
          let* more := take_events name n' in
          ret (eventobj :: more)
      | None => ret []
      end
  end.

Lemma set_queue_store_id (r : nat) (q : Queue) (b : bus) :
  queue_store b !! r = Some q -> set_queue_store (insert r q) b = b.
Proof. intros Hq. destruct b; unfold set_queue_store; simpl in *. by rewrite insert_id. Qed.

Lemma set_queue_store_twice (r : nat) (q q' : Queue) (b : bus) :
  set_queue_store (insert r q') (set_queue_store (insert r q) b)
  = set_queue_store (insert r q') b.
Proof. destruct b; unfold set_queue_store; simpl. by rewrite insert_insert_eq. Qed.

Lemma take_events_own name r es : forall b q rest,
  thread_specific_queue b !! name = Some r -> queue_store b !! r = Some q ->
  items q = es ++ rest ->
  take_events name (length es) b
  = Return es (set_queue_store (insert r (mkQueue (maxsize q) rest)) b).
Proof.
  induction es as [|e es IH]; intros b q rest Hn Hq Hi; simpl in *.
  - unfold ret. rewrite set_queue_store_id; [done|].
    rewrite Hq. destruct q; simpl in *. by subst.
  - unfold bind at 1. rewrite (_get_next_event_own name b r q e (es ++ rest)) by done.
    unfold bind.
    rewrite (IH _ (mkQueue (maxsize q) (es ++ rest)) rest);
      [|done | simpl; apply lookup_insert_eq | done].
    simpl. by rewrite set_queue_store_twice.
Qed.

(** X12. Events with one ordering key stay in order. On a running bus with
    at least one executor, two events with the same key, posted one after
    the other, are appended to the queue of one executor, and that executor
    receives what was in its queue, then the first event, then the
    second. *)
Theorem same_key_events_in_order
    (mq ec : Z) (safe : bool) (b : bus) (e1 e2 : event) (key : string) :
  rtc step (__init__ mq ec safe) b -> 1 <= ec -> keep_running b = true ->
  get_ordered e1 = Some key -> get_ordered e2 = Some key ->
  exists i own b1 b2 b3,
    grouped_events b !! i = Some (S i)
    /\ queue_store b !! S i = Some own
    /\ post (EventObj e1) b = Return true b1
    /\ post (EventObj e2) b1 = Return true b2
    /\ take_events (executor_name i) (length (items own) + 2) b2
       = Return (items own ++ [e1; e2]) b3.
Proof.
  intros Hsteps Hec Hk H1 H2.
  destruct (_choose_queue_ordered mq ec safe b e1 key Hsteps Hec H1)
    as (Hcount & Hrange & _ & Hlane & Hch1 & _).
  set (i := Z.to_nat (lane_index key (executor_count b))) in *.
  assert (Z.of_nat i < Z.min ec MAX_EXECUTOR_COUNT) as Hi by (subst i; lia).
  destruct (reached_executor mq ec safe b i Hsteps Hi)
    as (_ & _ & _ & _ & own & Hown & Hmax).
  assert (forall q, maxsize q = 0 -> queue_full q = false) as Hroom.
  { intros q Hq. unfold queue_full. by rewrite Hq. }
  pose proof (post_valid (EventObj e1) b e1 eq_refl Hk) as Hp1.
  rewrite Hch1, Hown, (Hroom own Hmax) in Hp1.
  set (b1 := enqueued (S i) own e1 b) in *.
  assert (rtc step (__init__ mq ec safe) b1) as Hsteps1.
  { eapply rtc_r; [exact Hsteps|]. exists (CallPost (EventObj e1)). simpl. by rewrite Hp1. }
  destruct (_choose_queue_ordered mq ec safe b1 e2 key Hsteps1 Hec H2)
    as (Hcount1 & _ & _ & _ & Hch2 & _).
  rewrite Hcount1, <- Hcount in Hch2. fold i in Hch2.
  set (own1 := mkQueue (maxsize own) (items own ++ [e1])).
  assert (queue_store b1 !! S i = Some own1) as Hown1 by apply lookup_insert_eq.
  pose proof (post_valid (EventObj e2) b1 e2 eq_refl Hk) as Hp2.
  rewrite Hch2, Hown1, (Hroom own1 Hmax) in Hp2.
  set (b2 := enqueued (S i) own1 e2 b1) in *.
  assert (rtc step (__init__ mq ec safe) b2) as Hsteps2.
  { eapply rtc_r; [exact Hsteps1|]. exists (CallPost (EventObj e2)). simpl. by rewrite Hp2. }
  destruct (reached_executor mq ec safe b2 i Hsteps2 Hi) as (_ & _ & Htq & _).
  exists i, own, b1, b2.
  eexists. split_and!; [done..|].
  replace (length (items own) + 2)%nat with (length (items own ++ [e1; e2]))
    by (rewrite length_app; simpl; lia).
  apply (take_events_own _ (S i) _ b2 (mkQueue (maxsize own) ((items own ++ [e1]) ++ [e2])) []).
  - done.
  - apply lookup_insert_eq.
  - simpl. by rewrite <- !app_assoc.
Qed.

Lemma same_key_events_in_order_witness :
  let e1 := Event 1 "topic" "event_mine" (Some "ord"%string) in
  let e2 := Event 2 "topic" "event_mine" (Some "ord"%string) in
  let b := __init__ 10000 4 true in
  exists i own b1 b2 b3,
    grouped_events b !! i = Some (S i)
    /\ queue_store b !! S i = Some own
    /\ post (EventObj e1) b = Return true b1
    /\ post (EventObj e2) b1 = Return true b2
    /\ take_events (executor_name i) (length (items own) + 2) b2
       = Return (items own ++ [e1; e2]) b3.
Proof.
  intros e1 e2 b.
  apply (same_key_events_in_order 10000 4 true b e1 e2 "ord");
    [apply rtc_refl | lia | reflexivity..].
Defined.

(** ** The life of a bus *)

(** [keep_running] and [stop_time] are the same. *)
Definition same_lifecycle (b b' : bus) : Prop :=
  keep_running b' = keep_running b /\ stop_time b' = stop_time b.

#[local] Instance same_lifecycle_preorder : PreOrder same_lifecycle.
Proof.
  split; [by split|].
  intros x y z [? ?] [? ?]. split; congruence.
Qed.

Lemma shutdown_cases (now : Q) (b : bus) :
  shutdown now b =
    if decide (shutdown_lock b ∈ held_locks b) then Blocked b
    else if keep_running b
         then Return (executors b) (set_stop_time (now + 2)%Q (set_keep_running false b))
         else Return [] b.
Proof.
  unfold shutdown. unfold bind at 1. unfold get at 1.
  destruct (decide (shutdown_lock b ∈ held_locks b)) as [Hin|Hin].
  - unfold bind, with_lock, acquire. by rewrite decide_True.
  - unfold bind at 1. rewrite with_lock_free by done.
    unfold bind at 1. unfold get at 1.
    change (keep_running (set_held_locks (cons (shutdown_lock b)) b))
      with (keep_running b).
    destruct (keep_running b); cbn [negb].
    + unfold bind, modify, ret, get. f_equal. destruct b; unfold_setters.
      by rewrite decide_True.
    + unfold ret. by rewrite release_acquired.
Qed.

(** A completed call other than the first [shutdown] leaves [keep_running]
    and [stop_time] as they are. *)
Lemma run_lifecycle c b b' :
  run c b = Some b' ->
  same_lifecycle b b'
  \/ (exists now, c = CallShutdown now /\ keep_running b = true
        /\ b' = set_stop_time (now + 2)%Q (set_keep_running false b)).
Proof.
  intros Hrun.
  assert (forall A (m : M A), preserves same_lifecycle m ->
            final (m b) = Some b' -> same_lifecycle b b') as Hfin.
  { intros A m Hm Hf. specialize (Hm b).
    destruct (m b); simpl in Hf; by simplify_eq. }
  assert (forall A (l : nat) (body : M A),
            preserves same_lifecycle body -> preserves same_lifecycle (with_lock l body))
    as Hwl by (apply with_lock_neutral; [apply _ | intros; by split]).
  assert (forall A (l : nat) (k : M A), preserves same_lifecycle k ->
            preserves same_lifecycle (acquire l ;; modify (release l) ;; k))
    as Hlu by (apply lock_unlock_neutral; [apply _ | intros; by split]).
  destruct c as [o | co t | co ts | co | co t | now | name now]; simpl in Hrun.
  - left. eapply Hfin; [|exact Hrun]. apply preserves_post; [apply _ |].
    intros r e b0. unfold queue_put.
    destruct (queue_store b0 !! r) as [q|]; [destruct (queue_full q)|]; by split.
  - left. eapply Hfin; [|exact Hrun].
    apply preserves_register_consumer; try done; [apply _ | intros; by split..].
  - left. eapply Hfin; [|exact Hrun].
    apply preserves_register_consumer_topics; try done; [apply _ | intros; by split..].
  - left. eapply Hfin; [|exact Hrun].
    apply preserves_unregister_consumer; try done; [apply _ | intros; by split..].
  - left. eapply Hfin; [|exact Hrun]. by apply preserves_is_subscribed; [apply _|].
  - rewrite shutdown_cases in Hrun.
    destruct (decide (shutdown_lock b ∈ held_locks b)); [done|].
    destruct (keep_running b) eqn:Hk; simpl in Hrun; simplify_eq.
    + right. by exists now.
    + left. by split.
  - left. eapply Hfin; [|exact Hrun].
    apply preserves_executor_turn; try done; [apply _|].
    intros r b0. unfold queue_get.
    destruct (queue_store b0 !! r) as [q|]; [destruct (items q)|]; by split.
Qed.


Lemma stopped_stays_stopped b b' :
  rtc step b b' -> keep_running b = false ->
  keep_running b' = false /\ stop_time b' = stop_time b.
Proof.
  intros Hsteps Hk. induction Hsteps as [b | b b1 b2 [c Hc] _ IH]; [done|].
  destruct (run_lifecycle c b b1 Hc) as [[Hk' Hs]|(now & _ & Hrun & _)].
  - rewrite <- Hs. apply IH. congruence.
  - congruence.
Qed.

(** X13. Once [shutdown] has cleared [keep_running], the bus never runs
    again: whatever calls follow, [keep_running] stays false, the deadline
    stays the one of the first [shutdown], and every [post] returns [False]
    and queues nothing. *)
Theorem post_rejected_after_shutdown (b b' : bus) (o : object) :
  keep_running b = false -> rtc step b b' ->
  keep_running b' = false
  /\ stop_time b' = stop_time b
  /\ post o b' = Return false b'.
Proof.
  intros Hk Hsteps. destruct (stopped_stays_stopped b b' Hsteps Hk) as [Hk' Hs].
  split_and!; [done..|]. apply post_invalid. by right.
Qed.

Lemma post_rejected_after_shutdown_witness :
  let b := after [CallShutdown 100] (__init__ 10000 2 true) in
  let b' := after [CallRegisterConsumer (SubscriberObj 1) "a"; CallShutdown 200] b in
  keep_running b' = false
  /\ stop_time b' = stop_time b
  /\ post (EventObj (Event 1 "a" "event_mine" None)) b' = Return false b'.
Proof.
  intros b b'. apply (post_rejected_after_shutdown b b').
  - vm_compute; reflexivity.
  - apply (rtc_l _ _ (after [CallRegisterConsumer (SubscriberObj 1) "a"] b)).
    + exists (CallRegisterConsumer (SubscriberObj 1) "a"). vm_compute; reflexivity.
    + apply rtc_once. exists (CallShutdown 200). vm_compute; reflexivity.
Defined.













(** X17. On a bus constructed with at least one executor, routing is the
    same in every state the bus reaches: an event without ordering key goes
    to [event_queue], and an event with a key goes to the queue of the
    executor [lane_index key executor_count], an index below the number of
    executors that depends on the key and the count only. *)
Theorem routing_is_stable (mq ec : Z) (safe : bool) (b b' : bus) (ev : event) :
  rtc step (__init__ mq ec safe) b -> rtc step (__init__ mq ec safe) b' ->
  1 <= ec ->
  exists r,
    _choose_queue ev b = Return r b
    /\ _choose_queue ev b' = Return r b'
    /\ match get_ordered ev with
       | None => r = event_queue b
       | Some key =>
           let indx := lane_index key (Z.min ec MAX_EXECUTOR_COUNT) in
           0 <= indx < Z.of_nat (length (executors b))
           /\ grouped_events b !! Z.to_nat indx = Some r
           /\ thread_specific_queue b !! executor_name (Z.to_nat indx) = Some r
           /\ r <> event_queue b
       end.
Proof.
  intros Hsteps Hsteps' Hec.
  destruct (get_ordered ev) as [key|] eqn:Hord.
  - destruct (_choose_queue_ordered mq ec safe b ev key Hsteps Hec Hord)
      as (Hcount & Hrange & Hlen & Hlane & Hch & Hne).
    destruct (_choose_queue_ordered mq ec safe b' ev key Hsteps' Hec Hord)
      as (Hcount' & _ & _ & _ & Hch' & _).
    rewrite Hcount', <- Hcount in Hch'.
    eexists. split; [exact Hch|]. split; [exact Hch'|].
    cbn zeta. rewrite <- Hcount. split; [lia|]. split; [done|]. split; [|done].
    apply (reached_executor mq ec safe b _ Hsteps). lia.
  - exists (event_queue b). split_and!; [by apply _choose_queue_unordered | | done].
    rewrite (_choose_queue_unordered ev b' Hord). f_equal.
    pose proof (reachable_static _ _ _ _ Hsteps) as (_ & _ & _ & _ & _ & Heq & _).
    pose proof (reachable_static _ _ _ _ Hsteps') as (_ & _ & _ & _ & _ & Heq' & _).
    congruence.
Qed.

Lemma routing_is_stable_witness :
  let ev := Event 1 "topic" "event_mine" (Some "ord"%string) in
  let b := __init__ 10000 4 true in
  let b' := after [CallPost (EventObj ev)] b in
  exists r,
    _choose_queue ev b = Return r b
    /\ _choose_queue ev b' = Return r b'
    /\ match get_ordered ev with
       | None => r = event_queue b
       | Some key =>
           let indx := lane_index key (Z.min 4 MAX_EXECUTOR_COUNT) in
           0 <= indx < Z.of_nat (length (executors b))
           /\ grouped_events b !! Z.to_nat indx = Some r
           /\ thread_specific_queue b !! executor_name (Z.to_nat indx) = Some r
           /\ r <> event_queue b
       end.
Proof.
  intros ev b b'. apply (routing_is_stable 10000 4 true b b' ev); [apply rtc_refl | | lia].
  apply rtc_once. exists (CallPost (EventObj ev)). vm_compute; reflexivity.
Defined.

(** X18. On a running bus constructed with at least one executor, [post] of
    an event never raises: an event with an ordering key is always accepted
    (the queue of an executor is never full), and an event without key is
    accepted unless the shared queue is full, in which case the call
    blocks. *)
Theorem post_accepts_or_blocks (mq ec : Z) (safe : bool) (b : bus) (ev : event) :
  rtc step (__init__ mq ec safe) b -> 1 <= ec -> keep_running b = true ->
  exists r q,
    _choose_queue ev b = Return r b /\ queue_store b !! r = Some q
    /\ (is_Some (get_ordered ev) -> queue_full q = false)
    /\ post (EventObj ev) b =
         if queue_full q then Blocked b else Return true (enqueued r q ev b).
Proof.
  intros Hsteps Hec Hk.
  destruct (post_event_running mq ec safe b ev Hsteps Hec Hk) as (r & q & Hch & Hq & Hpost).
  exists r, q. split_and!; [done..| |done].
  intros [key Hord].
  destruct (_choose_queue_ordered mq ec safe b ev key Hsteps Hec Hord)
    as (_ & _ & _ & Hlane & Hch' & _).
  rewrite Hch in Hch'. injection Hch' as ->.
  apply list_elem_of_lookup_2 in Hlane.
  destruct (reached_lane_queue mq ec safe b _ Hsteps Hlane) as (q' & Hq' & _ & Hfull).
  congruence.
Qed.

Lemma post_accepts_or_blocks_witness :
  let ev := Event 2 "topic" "event_mine" None in
  let b := after [CallPost (EventObj (Event 1 "topic" "event_mine" None))]
             (__init__ 1 1 true) in
  exists r q,
    _choose_queue ev b = Return r b /\ queue_store b !! r = Some q
    /\ (is_Some (get_ordered ev) -> queue_full q = false)
    /\ post (EventObj ev) b =
         if queue_full q then Blocked b else Return true (enqueued r q ev b).
Proof.
  intros ev b. apply (post_accepts_or_blocks 1 1 true b ev); [| lia | vm_compute; reflexivity].
  apply rtc_once. exists (CallPost (EventObj (Event 1 "topic" "event_mine" None))).
  vm_compute; reflexivity.
Defined.

(** ** The checksum and the indices *)

Lemma lxor_range (a b : Z) :
  0 <= a < 2 ^ 32 -> 0 <= b < 2 ^ 32 -> 0 <= Z.lxor a b < 2 ^ 32.
Proof.
  intros Ha Hb.
  assert (0 <= Z.lxor a b) as Hnn by (apply Z.lxor_nonneg; lia).
  split; [done|].
  destruct (Z.eq_dec (Z.lxor a b) 0) as [->|Hne]; [lia|].
  apply Z.log2_lt_pow2; [lia|].
  pose proof (Z.log2_lxor a b ltac:(lia) ltac:(lia)) as Hlog.
  assert (forall x, 0 <= x < 2 ^ 32 -> Z.log2 x < 32) as Hlt.
  { intros x Hx. destruct (Z.eq_dec x 0) as [->|Hx0]; [done|].
    apply Z.log2_lt_pow2; lia. }
  pose proof (Hlt a Ha). pose proof (Hlt b Hb). lia.
Qed.

Lemma step_bit_range (c : Z) : 0 <= c < 2 ^ 32 -> 0 <= Zlib.step_bit c < 2 ^ 32.
Proof.
  intros Hc. unfold Zlib.step_bit.
  assert (0 <= Z.shiftr c 1 < 2 ^ 32) as Hs.
  { rewrite Z.shiftr_div_pow2 by lia. change (2 ^ 1) with 2.
    split; [apply Z.div_pos; lia | apply Z.div_lt_upper_bound; lia]. }
  destruct (Z.testbit c 0); [|done].
  apply lxor_range; [done|]. by unfold Zlib.poly.
Qed.

Lemma step_byte_range (c b : Z) :
  0 <= c < 2 ^ 32 -> 0 <= b < 256 -> 0 <= Zlib.step_byte c b < 2 ^ 32.
Proof.
  intros Hc Hb. unfold Zlib.step_byte. cbn [Nat.iter nat_rect].
  do 8 apply step_bit_range. apply lxor_range; [done | lia].
Qed.

Lemma crc32_range (data : list Z) :
  Forall (fun b => 0 <= b < 256) data -> 0 <= Zlib.crc32 data < 2 ^ 32.
Proof.
  intros Hdata. unfold Zlib.crc32.
  apply lxor_range; [|done].
  assert (0 <= 0xFFFFFFFF < 2 ^ 32) as Hinit by done.
  revert Hinit. generalize 0xFFFFFFFF.
  induction Hdata as [|b data Hb _ IH]; intros c Hc; simpl; [done|].
  apply IH. by apply step_byte_range.
Qed.

Lemma bytes_of_str_range (data : string) :
  Forall (fun b => 0 <= b < 256) (bytes_of_str data).
Proof.
  unfold bytes_of_str. apply Forall_forall. intros b Hb.
  apply in_map_iff in Hb as (a & <- & _).
  pose proof (Ascii.N_ascii_bounded a). lia.
Qed.

(** X19. [get_crc32] returns an unsigned 32-bit value, so the [abs] of
    [_choose_queue] changes nothing: the topic index is the checksum modulo
    16 and stays within the sixteen shards, and the lane of a key is the
    checksum modulo 128, modulo the number of executors. *)
Theorem get_crc32_is_unsigned (data : string) :
  0 <= get_crc32 data < 2 ^ 32
  /\ Z.abs (get_crc32 data) = get_crc32 data
  /\ _get_topic_index data = get_crc32 data mod 16
  /\ 0 <= _get_topic_index data < MAX_TOPIC_INDEX
  /\ forall count, lane_index data count = (get_crc32 data mod 128) mod count.
Proof.
  assert (0 <= get_crc32 data < 2 ^ 32) as Hr
    by (unfold get_crc32; apply crc32_range, bytes_of_str_range).
  assert (forall n, 0 <= n -> Z.land (get_crc32 data) (2 ^ n - 1) = get_crc32 data mod 2 ^ n)
    as Hland.
  { intros n Hn. rewrite <- Z.land_ones by done. by rewrite Z.ones_equiv, Z.sub_1_r. }
  split_and!;
    [lia | lia | apply Z.abs_eq; lia | | apply _get_topic_index_range
    | apply _get_topic_index_range |].
  - unfold _get_topic_index, MAX_TOPIC_INDEX. apply (Hland 4). lia.
  - intros count. unfold lane_index, MAX_EXECUTOR_COUNT.
    rewrite Z.abs_eq by lia. change (128 - 1) with (2 ^ 7 - 1).
    by rewrite (Hland 7) by lia.
Qed.
